(** * PhotoVerifierSolidity: attestation ledger and commitment engine

  A shallow embedding of [contracts/solidity/PhotoVerifierSolidity.sol]
  (pragma solidity ^0.8.20).  Storage mappings are finite maps whose
  absent keys read as the zero value, [uint256] values are integers in
  [0, 2^256), arithmetic is checked (an overflowing [++] reverts the
  call), and the built-ins [abi.encodePacked] and [keccak256] are
  modelled at the byte level. *)

From Stdlib Require Import ZArith List Lia.
From Stdlib.Strings Require Import Byte Ascii.
From stdpp Require Import gmap list fin_maps strings.
Import ListNotations.

Local Open Scope Z_scope.

(** ** Bytes and fixed-width words *)

Module Bytes.

Definition byte_of_Z (z : Z) : byte :=
  match Byte.of_N (Z.to_N (z mod 256)) with
  | Some b => b
  | None => x00
  end.

Definition Z_of_byte (b : byte) : Z := Z.of_N (Byte.to_N b).

(** Big-endian encoding of [v] on exactly [n] bytes (high bytes first). *)
Fixpoint be_bytes (n : nat) (v : Z) : list byte :=
  match n with
  | O => []
  | S n' => be_bytes n' (v / 256) ++ [byte_of_Z v]
  end.

(** Big-endian decoding. *)
Definition be_to_Z (l : list byte) : Z :=
  fold_left (fun acc b => acc * 256 + Z_of_byte b) l 0.

(** Little-endian decoding, used for the lanes of the sponge state. *)
Fixpoint le_to_Z (l : list byte) : Z :=
  match l with
  | [] => 0
  | b :: l' => Z_of_byte b + 256 * le_to_Z l'
  end.

(** Little-endian encoding on [n] bytes. *)
Fixpoint le_bytes (n : nat) (v : Z) : list byte :=
  match n with
  | O => []
  | S n' => byte_of_Z v :: le_bytes n' (v / 256)
  end.

End Bytes.

(** ** The EVM's KECCAK256

  The contract calls the built-in [keccak256].  It is the original
  Keccak with rate 1088 and capacity 512: multi-rate padding with the
  suffix byte 0x01, 24 rounds of Keccak-f[1600] on 25 lanes of 64 bits,
  32 bytes of output. *)

Module Keccak.
Import Bytes.

Definition mask64 : Z := Z.ones 64.

Definition rotl64 (x n : Z) : Z :=
  Z.lor (Z.land (Z.shiftl x n) mask64) (Z.shiftr x (64 - n)).

(** The state is 25 lanes; lane (x, y) is at index [x + 5 * y]. *)
Definition lane (st : list Z) (i : Z) : Z := nth (Z.to_nat i) st 0.

Definition indices : list Z := map Z.of_nat (seq 0 25).

Definition round_constants : list Z :=
  [ 0x0000000000000001; 0x0000000000008082; 0x800000000000808A;
    0x8000000080008000; 0x000000000000808B; 0x0000000080000001;
    0x8000000080008081; 0x8000000000008009; 0x000000000000008A;
    0x0000000000000088; 0x0000000080008009; 0x000000008000000A;
    0x000000008000808B; 0x800000000000008B; 0x8000000000008089;
    0x8000000000008003; 0x8000000000008002; 0x8000000000000080;
    0x000000000000800A; 0x800000008000000A; 0x8000000080008081;
    0x8000000000008080; 0x0000000080000001; 0x8000000080008008 ].

Definition rho_offsets : list Z :=
  [ 0;  1; 62; 28; 27;
   36; 44;  6; 55; 20;
    3; 10; 43; 25; 39;
   41; 45; 15; 21;  8;
   18;  2; 61; 56; 14 ].

Definition theta (st : list Z) : list Z :=
  let C x := fold_left Z.lxor (map (fun y => lane st (x + 5 * y)) [0; 1; 2; 3; 4]) 0 in
  let D x := Z.lxor (C ((x + 4) mod 5)) (rotl64 (C ((x + 1) mod 5)) 1) in
  map (fun i => Z.lxor (lane st i) (D (i mod 5))) indices.

(** rho and pi together: the lane written at (X, Y) is the rotated lane
    read at (x, y) with X = y and Y = 2x + 3y, that is x = X + 3Y. *)
Definition rho_pi (st : list Z) : list Z :=
  map (fun j =>
         let X := j mod 5 in
         let Y := j / 5 in
         let src := (X + 3 * Y) mod 5 + 5 * X in
         rotl64 (lane st src) (lane rho_offsets src)) indices.

Definition chi (st : list Z) : list Z :=
  map (fun i =>
         let x := i mod 5 in
         let row := 5 * (i / 5) in
         Z.lxor (lane st i)
                (Z.land (Z.lxor (lane st ((x + 1) mod 5 + row)) mask64)
                        (lane st ((x + 2) mod 5 + row)))) indices.

Definition iota (rc : Z) (st : list Z) : list Z :=
  match st with
  | [] => []
  | a :: st' => Z.lxor a rc :: st'
  end.

Definition round (st : list Z) (rc : Z) : list Z :=
  iota rc (chi (rho_pi (theta st))).

Definition keccak_f (st : list Z) : list Z :=
  fold_left round round_constants st.

Definition rate : nat := 136.

Definition pad (len : nat) : list byte :=
  let q := (rate - len mod rate)%nat in
  match q with
  | 1%nat => [byte_of_Z 0x81]
  | _ => byte_of_Z 0x01 :: repeat x00 (q - 2) ++ [byte_of_Z 0x80]
  end.

(** The lanes of a block, little-endian, eight bytes each. *)
Fixpoint lanes_of_block (n : nat) (bs : list byte) : list Z :=
  match n with
  | O => []
  | S n' => le_to_Z (firstn 8 bs) :: lanes_of_block n' (skipn 8 bs)
  end.

Fixpoint xor_lanes (st blk : list Z) : list Z :=
  match st, blk with
  | a :: st', b :: blk' => Z.lxor a b :: xor_lanes st' blk'
  | _, _ => st
  end.

Fixpoint absorb (blocks : nat) (st : list Z) (bs : list byte) : list Z :=
  match blocks with
  | O => st
  | S k =>
      absorb k (keccak_f (xor_lanes st (lanes_of_block 17 (firstn rate bs))))
             (skipn rate bs)
  end.

Definition squeeze (st : list Z) : list byte :=
  flat_map (le_bytes 8) (firstn 4 st).

Definition keccak256 (msg : list byte) : list byte :=
  let padded := msg ++ pad (length msg) in
  squeeze (absorb (length padded / rate) (repeat 0 25) padded).

End Keccak.

(** ** Solidity values and the transaction monad *)

Module Solidity.
Import Bytes.

Definition MAX_UINT256 : Z := 2 ^ 256 - 1.

Definition is_uint256 (v : Z) : Prop := 0 <= v <= MAX_UINT256.
Definition is_address (a : Z) : Prop := 0 <= a < 2 ^ 160.

(** What a call sees of its transaction and block. *)
Record Env := { msg_sender : Z; block_timestamp : Z }.

Definition wf_env (env : Env) : Prop :=
  is_address (msg_sender env) /\ is_uint256 (block_timestamp env).

(** [Panic 0x11] is the error of a checked arithmetic overflow. *)
Inductive error := Panic (code : Z).

Inductive result (A : Type) :=
| Ok (a : A)
| Revert (e : error).
Arguments Ok {A} a.
Arguments Revert {A} e.

(** A call runs on the contract's storage; when it reverts, every write
    it made is dropped. *)
Definition tx (S A : Type) : Type := S -> result (A * S).

#[global] Instance tx_ret {S} : MRet (tx S) := fun A a s => Ok (a, s).

#[global] Instance tx_bind {S} : MBind (tx S) := fun A B f m s =>
  match m s with
  | Ok (a, s') => f a s'
  | Revert e => Revert e
  end.

#[global] Instance tx_throw {S} : MThrow error (tx S) := fun A e _ => Revert e.

Definition sload {S A} (read : S -> A) : tx S A := fun s => Ok (read s, s).
Definition sstore {S} (write : S -> S) : tx S unit := fun s => Ok (tt, write s).

(** [x + 1] of a [uint256] under the checked arithmetic of Solidity 0.8. *)
Definition checked_incr {S} (x : Z) : tx S Z :=
  if x + 1 <=? MAX_UINT256 then mret (x + 1) else mthrow (Panic 0x11).

(** [abi.encodePacked] of [uint256] arguments: each one on 32 bytes,
    big-endian, one after the other. *)
Definition abi_encodePacked (args : list Z) : list byte :=
  flat_map (be_bytes 32) args.

(** The conversion [uint256(bytes32)]. *)
Definition uint256_of_bytes32 (digest : list byte) : Z := be_to_Z digest.

End Solidity.

(** ** The contract *)

Module PhotoVerifierSolidity.
Import Bytes Solidity.

Record PhotoAttestation := {
  verifiedAt : Z;
  owner : Z;
  zkCommitment : Z
}.

(** The contract's state variables.  The state variable [owner] of the
    source is [contractOwner] here, the name [owner] being the struct's
    field. *)
Record Storage := {
  attestations : gmap Z PhotoAttestation;
  ownerPhotoCount : gmap Z Z;
  contractOwner : Z;
  photoCount : Z
}.

(** A key that was never written reads as the zero value. *)
Definition zero_attestation : PhotoAttestation :=
  {| verifiedAt := 0; owner := 0; zkCommitment := 0 |}.

Definition attestations_at (s : Storage) (photoHash : Z) : PhotoAttestation :=
  default zero_attestation (attestations s !! photoHash).

Definition ownerPhotoCount_at (s : Storage) (a : Z) : Z :=
  default 0 (ownerPhotoCount s !! a).

Definition set_attestation (photoHash : Z) (att : PhotoAttestation) (s : Storage) : Storage :=
  {| attestations := <[photoHash := att]> (attestations s);
     ownerPhotoCount := ownerPhotoCount s;
     contractOwner := contractOwner s;
     photoCount := photoCount s |}.

Definition set_ownerPhotoCount (a n : Z) (s : Storage) : Storage :=
  {| attestations := attestations s;
     ownerPhotoCount := <[a := n]> (ownerPhotoCount s);
     contractOwner := contractOwner s;
     photoCount := photoCount s |}.

Definition set_photoCount (n : Z) (s : Storage) : Storage :=
  {| attestations := attestations s;
     ownerPhotoCount := ownerPhotoCount s;
     contractOwner := contractOwner s;
     photoCount := n |}.

Definition constructor (env : Env) : Storage :=
  {| attestations := ∅;
     ownerPhotoCount := ∅;
     contractOwner := msg_sender env;
     photoCount := 0 |}.

Definition verifyPhoto (env : Env) (photoHash zkCommitment : Z) : tx Storage Z :=
  let timestamp := block_timestamp env in
  sstore (set_attestation photoHash
            {| verifiedAt := timestamp;
               owner := msg_sender env;
               zkCommitment := zkCommitment |});;
  n ← sload (fun s => ownerPhotoCount_at s (msg_sender env));
  n' ← checked_incr n;
  sstore (set_ownerPhotoCount (msg_sender env) n');;
  p ← sload photoCount;
  p' ← checked_incr p;
  sstore (set_photoCount p');;
  mret timestamp.

Definition getAttestation (s : Storage) (photoHash : Z) : Z * Z * Z :=
  let att := attestations_at s photoHash in
  (verifiedAt att, owner att, zkCommitment att).

Definition computeCommitment (photoHash secret : Z) : Z :=
  let data := abi_encodePacked [photoHash; secret] in
  uint256_of_bytes32 (Keccak.keccak256 data).

Definition verifyZkProof (s : Storage) (photoHash secret : Z) : bool :=
  let att := attestations_at s photoHash in
  let computed := computeCommitment photoHash secret in
  computed =? zkCommitment att.

Definition isVerified (s : Storage) (photoHash : Z) : bool :=
  verifiedAt (attestations_at s photoHash) >? 0.

Definition getOwnerOf (s : Storage) (photoHash : Z) : Z :=
  owner (attestations_at s photoHash).

Definition getOwnerPhotoCount (s : Storage) (_owner : Z) : Z :=
  ownerPhotoCount_at s _owner.

Definition getPhotoCount (s : Storage) : Z := photoCount s.

(** *** The external interface

    Every function a transaction can call, the value it returns, and
    the dispatch.  Functions declared [view] or [pure] leave the storage
    as it is; the four [public] state variables have getters. *)

Inductive call :=
| call_verifyPhoto (photoHash zkCommitment : Z)
| call_getAttestation (photoHash : Z)
| call_verifyZkProof (photoHash secret : Z)
| call_computeCommitment (photoHash secret : Z)
| call_isVerified (photoHash : Z)
| call_getOwnerOf (photoHash : Z)
| call_getOwnerPhotoCount (_owner : Z)
| call_getPhotoCount
| call_attestations (photoHash : Z)
| call_ownerPhotoCount (a : Z)
| call_owner
| call_photoCount.

Inductive retval :=
| ret_uint256 (v : Z)
| ret_address (a : Z)
| ret_bool (b : bool)
| ret_attestation (r : Z * Z * Z).

Definition wf_call (c : call) : Prop :=
  match c with
  | call_verifyPhoto h z
  | call_verifyZkProof h z
  | call_computeCommitment h z => is_uint256 h /\ is_uint256 z
  | call_getAttestation h
  | call_isVerified h
  | call_getOwnerOf h
  | call_attestations h => is_uint256 h
  | call_getOwnerPhotoCount a
  | call_ownerPhotoCount a => is_address a
  | call_getPhotoCount | call_owner | call_photoCount => True
  end.

Definition execute (env : Env) (c : call) : tx Storage retval :=
  match c with
  | call_verifyPhoto h z => t ← verifyPhoto env h z; mret (ret_uint256 t)
  | call_getAttestation h
  | call_attestations h => r ← sload (fun s => getAttestation s h); mret (ret_attestation r)
  | call_verifyZkProof h x => b ← sload (fun s => verifyZkProof s h x); mret (ret_bool b)
  | call_computeCommitment h x => mret (ret_uint256 (computeCommitment h x))
  | call_isVerified h => b ← sload (fun s => isVerified s h); mret (ret_bool b)
  | call_getOwnerOf h => a ← sload (fun s => getOwnerOf s h); mret (ret_address a)
  | call_getOwnerPhotoCount a
  | call_ownerPhotoCount a => n ← sload (fun s => getOwnerPhotoCount s a); mret (ret_uint256 n)
  | call_getPhotoCount
  | call_photoCount => n ← sload getPhotoCount; mret (ret_uint256 n)
  | call_owner => a ← sload contractOwner; mret (ret_address a)
  end.

(** The states a deployed contract can be in: the constructor's, and
    the state after any call that did not revert. *)
Inductive reachable : Storage -> Prop :=
| reachable_constructor env :
    wf_env env -> reachable (constructor env)
| reachable_call s env c r s' :
    reachable s -> wf_env env -> wf_call c ->
    execute env c s = Ok (r, s') ->
    reachable s'.

(** The sum of [ownerPhotoCount] over all identities: the identities
    never written count zero, so it is the sum over the map's entries. *)
Definition sum_ownerPhotoCount (s : Storage) : Z :=
  map_fold (fun _ n acc => n + acc) 0 (ownerPhotoCount s).

(** The ledger operation of the specification: [record] is [verifyPhoto]
    called by [submitter] in a block whose timestamp is [now]. *)
Definition record (contentId commitment submitter now : Z) : tx Storage Z :=
  verifyPhoto {| msg_sender := submitter; block_timestamp := now |}
              contentId commitment.

End PhotoVerifierSolidity.

(** ** States and inputs used in the statements below *)

Module Scenario.
Import Solidity PhotoVerifierSolidity.

(** The storage after a [verifyPhoto] that did not revert. *)
Definition after_verifyPhoto (env : Env) (photoHash zkCommitment : Z) (s : Storage) : Storage :=
  {| attestations :=
       <[photoHash := {| verifiedAt := block_timestamp env;
                         owner := msg_sender env;
                         zkCommitment := zkCommitment |}]> (attestations s);
     ownerPhotoCount :=
       <[msg_sender env := ownerPhotoCount_at s (msg_sender env) + 1]> (ownerPhotoCount s);
     contractOwner := contractOwner s;
     photoCount := photoCount s + 1 |}.

(** Neither counter that a write by [a] increments is at its maximum. *)
Definition not_saturated (s : Storage) (a : Z) : Prop :=
  ownerPhotoCount_at s a < MAX_UINT256 /\ photoCount s < MAX_UINT256.

(** The 32-byte values 0x11..11, 0x22..22 and 0x33..33. *)
Definition bytes32_11 : Z :=
  0x1111111111111111111111111111111111111111111111111111111111111111.
Definition bytes32_22 : Z :=
  0x2222222222222222222222222222222222222222222222222222222222222222.
Definition bytes32_33 : Z :=
  0x3333333333333333333333333333333333333333333333333333333333333333.

(** The sender and block of a transaction that is all zeros. *)
Definition env0 : Env := {| msg_sender := 0; block_timestamp := 0 |}.

(** The storage after [n >= 1] calls [verifyPhoto(0, 0)] of [env0] on the
    contract that [env0] deployed. *)
Definition after_writes (n : Z) : Storage :=
  {| attestations := {[ 0 := zero_attestation ]};
     ownerPhotoCount := {[ 0 := n ]};
     contractOwner := 0;
     photoCount := n |}.

(** Every stored field has the width of its type, no identity's count
    exceeds the global count, and the global count is a [uint256]. *)
Definition wf_storage (s : Storage) : Prop :=
  (forall h att, attestations s !! h = Some att ->
     is_uint256 (verifiedAt att) /\ is_address (owner att) /\
     is_uint256 (zkCommitment att)) /\
  (forall a, 0 <= ownerPhotoCount_at s a <= photoCount s) /\
  photoCount s <= MAX_UINT256.

(** The commitment in the specification's words: the hash of the content
    identifier's 32 bytes immediately followed by the secret's 32 bytes,
    the digest read as a 256-bit integer. *)
Definition commitment_by_spec (contentId secret : Z) : Z :=
  Bytes.be_to_Z
    (Keccak.keccak256 (Bytes.be_bytes 32 contentId ++ Bytes.be_bytes 32 secret)).

End Scenario.

(** ** Histories of transactions *)

Module History.
Import Solidity PhotoVerifierSolidity.

(** The storage after a list of transactions, oldest first.  A
    transaction that reverts leaves the storage as it was. *)
Fixpoint run (txs : list (Env * call)) (s : Storage) : Storage :=
  match txs with
  | [] => s
  | (env, c) :: rest =>
      match execute env c s with
      | Ok (_, s') => run rest s'
      | Revert _ => run rest s
      end
  end.

(** How many of the transactions call [verifyPhoto]. *)
Fixpoint writes (txs : list (Env * call)) : Z :=
  match txs with
  | [] => 0
  | (_, call_verifyPhoto _ _) :: rest => 1 + writes rest
  | _ :: rest => writes rest
  end.

(** How many of them are calls of [verifyPhoto] sent by [a]. *)
Fixpoint writes_by (a : Z) (txs : list (Env * call)) : Z :=
  match txs with
  | [] => 0
  | (env, call_verifyPhoto _ _) :: rest =>
      (if msg_sender env =? a then 1 else 0) + writes_by a rest
  | _ :: rest => writes_by a rest
  end.

(** What a transaction writes at [photoHash], if it writes there. *)
Definition write_at (photoHash : Z) (tx : Env * call) : option PhotoAttestation :=
  match tx with
  | (env, call_verifyPhoto h z) =>
      if h =? photoHash
      then Some {| verifiedAt := block_timestamp env;
                   owner := msg_sender env;
                   zkCommitment := z |}
      else None
  | _ => None
  end.

(** The record of the latest [verifyPhoto] of [photoHash] in the list. *)
Fixpoint last_write (photoHash : Z) (txs : list (Env * call)) : option PhotoAttestation :=
  match txs with
  | [] => None
  | tx :: rest =>
      match last_write photoHash rest with
      | Some att => Some att
      | None => write_at photoHash tx
      end
  end.

(** Every transaction of the list is in a block with a positive timestamp. *)
Definition positive_timestamps (txs : list (Env * call)) : Prop :=
  Forall (fun tx => 0 < block_timestamp (fst tx)) txs.

End History.

(** ** The registry client: [frontend/src/utils/eas.ts]

    The steps of the client that work on strings and on the browser's
    [localStorage].  A JavaScript string is a sequence of code units;
    the ones handled here are ASCII. *)

Module JsString.

Local Open Scope string_scope.

(** [s.startsWith(p)] *)
Fixpoint startsWith (s p : string) {struct p} : bool :=
  match p, s with
  | EmptyString, _ => true
  | String _ _, EmptyString => false
  | String c p', String d s' => if Ascii.eqb c d then startsWith s' p' else false
  end.

(** [s.slice(0, n)] *)
Fixpoint slice_to (n : nat) (s : string) : string :=
  match n, s with
  | O, _ => EmptyString
  | S _, EmptyString => EmptyString
  | S n', String c s' => String c (slice_to n' s')
  end.

(** [s.slice(n)] *)
Fixpoint slice_from (n : nat) (s : string) : string :=
  match n, s with
  | O, _ => s
  | S _, EmptyString => EmptyString
  | S n', String _ s' => slice_from n' s'
  end.

Fixpoint repeat_unit (c : ascii) (n : nat) : string :=
  match n with
  | O => EmptyString
  | S n' => String c (repeat_unit c n')
  end.

(** [s.padEnd(n, c)] for a fill string [c] of one unit: nothing is added
    to a string of [n] units or more, and nothing is ever cut. *)
Definition padEnd (n : nat) (c : ascii) (s : string) : string :=
  s ++ repeat_unit c (n - String.length s).

(** [s.replace(pat, rep)] with a string pattern: the first occurrence
    only. *)
Fixpoint replace (pat rep s : string) : string :=
  if startsWith s pat then rep ++ slice_from (String.length pat) s
  else match s with
       | EmptyString => EmptyString
       | String c s' => String c (replace pat rep s')
       end.

End JsString.

Module Eas.
Import JsString.

Local Open Scope string_scope.

Definition SCHEMA_UID_KEY : string := "arbipic_eas_schema_uid".

(** [createSimpleAttestation], the step that makes the photo hash and
    the commitment [bytes32] literals:
    [h.startsWith('0x') ? h : `0x${h}`], and then
    [f.slice(0, 2) + f.slice(2).padEnd(64, '0')]. *)
Definition with_0x (h : string) : string :=
  if startsWith h "0x" then h else "0x" ++ h.

Definition formatted (h : string) : string :=
  let f := with_0x h in
  slice_to 2 f ++ padEnd 64 "0" (slice_from 2 f).

(** The key of a photo's attestation in [localStorage]:
    [`eas_attestation_${photoHash.replace('0x', '')}`]. *)
Definition attestation_key (photoHash : string) : string :=
  "eas_attestation_" ++ replace "0x" "" photoHash.

(** [createSimpleAttestation], its last step on success: the attestation
    data, serialized, is stored under the photo's key. *)
Definition store_attestation (photoHash json : string)
           (localStorage : gmap string string) : gmap string string :=
  <[attestation_key photoHash := json]> localStorage.

(** What a lookup that parses its item gives: the parsed value, [null],
    or the [SyntaxError] that [JSON.parse] throws. *)
Inductive parsed (A : Type) :=
| Value (a : A)
| Null
| SyntaxError.
Arguments Value {A} a.
Arguments Null {A}.
Arguments SyntaxError {A}.

Section Json.
(** [JSON.parse]; [None] when it throws. *)
Context {A : Type} (JSON_parse : string -> option A).

(** [getLocalEASAttestation]: [data ? JSON.parse(data) : null], where
    both a missing item and the empty string are falsy. *)
Definition getLocalEASAttestation (photoHash : string)
           (localStorage : gmap string string) : parsed A :=
  let cleanHash := replace "0x" "" photoHash in
  match localStorage !! ("eas_attestation_" ++ cleanHash) with
  | Some data =>
      if String.eqb data "" then Null
      else match JSON_parse data with
           | Some a => Value a
           | None => SyntaxError
           end
  | None => Null
  end.
End Json.

Definition setSchemaUID (uid : string) (localStorage : gmap string string)
  : gmap string string :=
  <[SCHEMA_UID_KEY := uid]> localStorage.

Definition getSchemaUID (localStorage : gmap string string) : option string :=
  localStorage !! SCHEMA_UID_KEY.

Section SchemaUID.
(** The value of [keccak256(abiCoder.encode(['string', 'address', 'bool'],
    [PHOTO_VERIFICATION_SCHEMA, zero address, true]))], a constant. *)
Context (computedUID : string).

(** [getOrRegisterSchemaUID], as far as [localStorage] and the result
    go.  The registration that follows is sent to the registry;
    [registered] says whether it went through, and a failure is caught
    and only logged. *)
Definition getOrRegisterSchemaUID (registered : bool)
           (localStorage : gmap string string) : string * gmap string string :=
  let storedUID := localStorage !! SCHEMA_UID_KEY in
  let localStorage' :=
    if decide (storedUID = Some computedUID) then localStorage
    else <[SCHEMA_UID_KEY := computedUID]> localStorage in
  match registered with
  | true | false => (computedUID, localStorage')
  end.
End SchemaUID.

Section Receipt.
(** [keccak256(toUtf8Bytes('Attested(address,address,bytes32,bytes32)'))] *)
Context (attestedEventTopic : string).

(** [createSimpleAttestation], the loop over the receipt's logs: the
    value of [attestationUID] after it.  It starts as the empty string;
    at the first log whose [topics[0]] is the event's topic it becomes
    that log's [topics[2]], which is [undefined] ([None]) when the log
    has fewer than three topics, and the loop stops. *)
Fixpoint uid_of_logs (logs : list (list string)) : option string :=
  match logs with
  | [] => Some ""
  | topics :: rest =>
      if decide (topics !! 0%nat = Some attestedEventTopic)
      then topics !! 2%nat
      else uid_of_logs rest
  end.

(** The reference of the attestation: the UID parsed from the logs of
    the receipt when there is a receipt with logs, and the transaction
    hash when what was parsed is falsy (undefined or empty). *)
Definition attestation_reference (receipt : option (list (list string)))
           (txHash : string) : string :=
  let attestationUID :=
    match receipt with
    | Some logs => uid_of_logs logs
    | None => Some ""
    end in
  match attestationUID with
  | Some uid => if String.eqb uid "" then txHash else uid
  | None => txHash
  end.
End Receipt.

(** The log does not carry the event's topic first. *)
Definition other_event (attestedEventTopic : string) (topics : list string) : Prop :=
  topics !! 0%nat <> Some attestedEventTopic.

(** A string of hexadecimal digits. *)
Definition is_hex_digit (c : ascii) : bool :=
  let n := Ascii.nat_of_ascii c in
  ((48 <=? n) && (n <=? 57) || (97 <=? n) && (n <=? 102) || (65 <=? n) && (n <=? 70))%nat.

Fixpoint is_hex (s : string) : bool :=
  match s with
  | EmptyString => true
  | String c s' => is_hex_digit c && is_hex s'
  end.

End Eas.

(** * Properties *)

(** ** Big-endian words *)

Module BytesFacts.
Import Bytes.

Lemma Z_of_byte_range (b : byte) : 0 <= Z_of_byte b < 256.
Proof.
  unfold Z_of_byte. pose proof (Byte.to_N_bounded b). lia.
Qed.

Lemma Z_of_byte_of_Z (z : Z) : Z_of_byte (byte_of_Z z) = z mod 256.
Proof.
  unfold Z_of_byte, byte_of_Z.
  assert (Hr : 0 <= z mod 256 < 256) by (apply Z.mod_pos_bound; lia).
  destruct (Byte.of_N (Z.to_N (z mod 256))) as [b|] eqn:E.
  - apply Byte.to_of_N in E. rewrite E. lia.
  - apply Byte.of_N_None_iff in E. lia.
Qed.

Lemma be_to_Z_snoc (l : list byte) (b : byte) :
  be_to_Z (l ++ [b]) = be_to_Z l * 256 + Z_of_byte b.
Proof. unfold be_to_Z. rewrite fold_left_app. reflexivity. Qed.

Lemma length_be_bytes (n : nat) (v : Z) : length (be_bytes n v) = n.
Proof.
  revert v. induction n as [|n IH]; intros v; simpl; [reflexivity|].
  rewrite length_app, IH. simpl. lia.
Qed.

Lemma be_to_Z_be_bytes (n : nat) (v : Z) :
  be_to_Z (be_bytes n v) = v mod 256 ^ Z.of_nat n.
Proof.
  revert v. induction n as [|n IH]; intros v.
  - simpl. rewrite Z.mod_1_r. reflexivity.
  - cbn [be_bytes]. rewrite be_to_Z_snoc, IH, Z_of_byte_of_Z.
    rewrite Nat2Z.inj_succ, Z.pow_succ_r by lia.
    rewrite Z.rem_mul_r by lia. lia.
Qed.

Lemma be_to_Z_bound (l : list byte) : 0 <= be_to_Z l < 256 ^ Z.of_nat (length l).
Proof.
  induction l as [|b l IH] using rev_ind.
  - cbn. lia.
  - rewrite be_to_Z_snoc, length_app. cbn [length].
    replace (Z.of_nat (length l + 1)) with (Z.succ (Z.of_nat (length l))) by lia.
    rewrite Z.pow_succ_r by lia.
    pose proof (Z_of_byte_range b). lia.
Qed.

Lemma pow_256_32 : 256 ^ Z.of_nat 32 = Solidity.MAX_UINT256 + 1.
Proof. reflexivity. Qed.

(** A [uint256] is recovered from its 32 bytes. *)
Lemma be_to_Z_uint256 (v : Z) :
  Solidity.is_uint256 v -> be_to_Z (be_bytes 32 v) = v.
Proof.
  intros Hv. rewrite be_to_Z_be_bytes, pow_256_32.
  unfold Solidity.is_uint256 in Hv. apply Z.mod_small. lia.
Qed.

Lemma be_bytes_uint256_inj (v w : Z) :
  Solidity.is_uint256 v -> Solidity.is_uint256 w ->
  be_bytes 32 v = be_bytes 32 w -> v = w.
Proof.
  intros Hv Hw E.
  rewrite <- (be_to_Z_uint256 v Hv), <- (be_to_Z_uint256 w Hw), E. reflexivity.
Qed.

End BytesFacts.

(** ** The hash: known digests and digest width *)

Module KeccakFacts.
Import Bytes Keccak.

Lemma length_indices : length indices = 25%nat.
Proof. reflexivity. Qed.

Lemma length_iota (rc : Z) (st : list Z) : length (iota rc st) = length st.
Proof. destruct st; reflexivity. Qed.

Lemma length_round (st : list Z) (rc : Z) : length (round st rc) = 25%nat.
Proof.
  unfold round, chi. rewrite length_iota, length_map. apply length_indices.
Qed.

Lemma length_keccak_f (st : list Z) : length (keccak_f st) = 25%nat.
Proof.
  unfold keccak_f, round_constants. cbn [fold_left]. apply length_round.
Qed.

Lemma length_absorb (blocks : nat) (st : list Z) (bs : list byte) :
  length st = 25%nat -> length (absorb blocks st bs) = 25%nat.
Proof.
  revert st bs. induction blocks as [|k IH]; intros st bs Hst; cbn [absorb].
  - exact Hst.
  - apply IH, length_keccak_f.
Qed.

Lemma length_le_bytes (n : nat) (v : Z) : length (le_bytes n v) = n.
Proof.
  revert v. induction n as [|n IH]; intros v; cbn [le_bytes length]; [|rewrite IH]; reflexivity.
Qed.

Lemma length_squeeze (st : list Z) :
  length st = 25%nat -> length (squeeze st) = 32%nat.
Proof.
  intros Hst. unfold squeeze.
  do 4 (destruct st as [|? st]; [discriminate Hst|]).
  cbn [firstn flat_map]. rewrite !length_app, !length_le_bytes. reflexivity.
Qed.

(** The digest is 32 bytes whatever the message. *)
Lemma length_keccak256 (msg : list byte) : length (keccak256 msg) = 32%nat.
Proof.
  unfold keccak256. apply length_squeeze, length_absorb, repeat_length.
Qed.

(** The digests of the empty message, of "abc", and of 32 and 64 zero
    bytes, as published for Keccak-256 and as the EVM computes them. *)
Example keccak256_empty :
  be_to_Z (keccak256 []) =
  0xc5d2460186f7233c927e7db2dcc703c0e500b653ca82273b7bfad8045d85a470.
Proof. vm_compute. reflexivity. Qed.

Example keccak256_abc :
  be_to_Z (keccak256 [x61; x62; x63]) =
  0x4e03657aea45a94fc7d47ba826c8d667c0d1e6e33a64a036ec44f58fa12d6c45.
Proof. vm_compute. reflexivity. Qed.

Example keccak256_zero_word :
  be_to_Z (keccak256 (repeat x00 32)) =
  0x290decd9548b62a8d60345a988386fc84ba6bc95484008f6362f93160ef3e563.
Proof. vm_compute. reflexivity. Qed.

Example keccak256_two_zero_words :
  be_to_Z (keccak256 (repeat x00 64)) =
  0xad3228b676f7d3cd4284a5443f17f1962b36e491b30a40b2405849e597ba5fb5.
Proof. vm_compute. reflexivity. Qed.

End KeccakFacts.

(** ** The ledger *)

Module LedgerFacts.
Import Bytes Solidity PhotoVerifierSolidity Scenario.

(** *** What [verifyPhoto] does, in one equation *)

Lemma ownerPhotoCount_at_set_attestation h att s a :
  ownerPhotoCount_at (set_attestation h att s) a = ownerPhotoCount_at s a.
Proof. reflexivity. Qed.

Lemma photoCount_set_ownerPhotoCount a n s :
  photoCount (set_ownerPhotoCount a n s) = photoCount s.
Proof. reflexivity. Qed.

Lemma verifyPhoto_eq (env : Env) (photoHash zkc : Z) (s : Storage) :
  verifyPhoto env photoHash zkc s =
  if ownerPhotoCount_at s (msg_sender env) + 1 <=? MAX_UINT256
  then if photoCount s + 1 <=? MAX_UINT256
       then Ok (block_timestamp env, after_verifyPhoto env photoHash zkc s)
       else Revert (Panic 0x11)
  else Revert (Panic 0x11).
Proof.
  unfold verifyPhoto, mbind, tx_bind, sstore, sload, checked_incr.
  rewrite ownerPhotoCount_at_set_attestation.
  destruct (ownerPhotoCount_at s (msg_sender env) + 1 <=? MAX_UINT256) eqn:E1;
    [|reflexivity].
  unfold mret at 1. unfold tx_ret at 1.
  rewrite photoCount_set_ownerPhotoCount.
  change (photoCount (set_attestation _ _ s)) with (photoCount s).
  destruct (photoCount s + 1 <=? MAX_UINT256) eqn:E2; reflexivity.
Qed.

Lemma verifyPhoto_ok env photoHash zkc s :
  not_saturated s (msg_sender env) ->
  verifyPhoto env photoHash zkc s =
  Ok (block_timestamp env, after_verifyPhoto env photoHash zkc s).
Proof.
  intros [Ho Hp]. rewrite verifyPhoto_eq.
  destruct (Z.leb_spec (ownerPhotoCount_at s (msg_sender env) + 1) MAX_UINT256); [|lia].
  destruct (Z.leb_spec (photoCount s + 1) MAX_UINT256); [reflexivity|lia].
Qed.

Lemma verifyPhoto_inv env photoHash zkc s r s' :
  verifyPhoto env photoHash zkc s = Ok (r, s') ->
  r = block_timestamp env /\
  s' = after_verifyPhoto env photoHash zkc s /\
  not_saturated s (msg_sender env).
Proof.
  rewrite verifyPhoto_eq. unfold not_saturated.
  destruct (Z.leb_spec (ownerPhotoCount_at s (msg_sender env) + 1) MAX_UINT256);
    [|discriminate].
  destruct (Z.leb_spec (photoCount s + 1) MAX_UINT256); [|discriminate].
  intros [= <- <-]. repeat split; lia.
Qed.

Lemma verifyPhoto_saturated env photoHash zkc s :
  ~ not_saturated s (msg_sender env) ->
  verifyPhoto env photoHash zkc s = Revert (Panic 0x11).
Proof.
  intros Hn. rewrite verifyPhoto_eq. unfold not_saturated in Hn.
  destruct (Z.leb_spec (ownerPhotoCount_at s (msg_sender env) + 1) MAX_UINT256);
    [|reflexivity].
  destruct (Z.leb_spec (photoCount s + 1) MAX_UINT256); [lia|reflexivity].
Qed.

(** *** Reading the storage after a write *)

Lemma attestations_at_after_eq env h zkc s :
  attestations_at (after_verifyPhoto env h zkc s) h =
  {| verifiedAt := block_timestamp env; owner := msg_sender env; zkCommitment := zkc |}.
Proof.
  unfold attestations_at, after_verifyPhoto. cbn [attestations].
  rewrite lookup_insert_eq. reflexivity.
Qed.

Lemma attestations_at_after_ne env h h' zkc s :
  h' <> h ->
  attestations_at (after_verifyPhoto env h zkc s) h' = attestations_at s h'.
Proof.
  intros Hne. unfold attestations_at, after_verifyPhoto. cbn [attestations].
  rewrite lookup_insert_ne by congruence. reflexivity.
Qed.

Lemma ownerPhotoCount_at_after_eq env h zkc s :
  ownerPhotoCount_at (after_verifyPhoto env h zkc s) (msg_sender env) =
  ownerPhotoCount_at s (msg_sender env) + 1.
Proof.
  unfold ownerPhotoCount_at at 1. unfold after_verifyPhoto. cbn [ownerPhotoCount].
  rewrite lookup_insert_eq. reflexivity.
Qed.

Lemma ownerPhotoCount_at_after_ne env h zkc s a :
  a <> msg_sender env ->
  ownerPhotoCount_at (after_verifyPhoto env h zkc s) a = ownerPhotoCount_at s a.
Proof.
  intros Hne. unfold ownerPhotoCount_at, after_verifyPhoto. cbn [ownerPhotoCount].
  rewrite lookup_insert_ne by congruence. reflexivity.
Qed.

Lemma ownerPhotoCount_at_constructor env a :
  ownerPhotoCount_at (constructor env) a = 0.
Proof. unfold ownerPhotoCount_at, constructor. cbn [ownerPhotoCount]. rewrite lookup_empty. reflexivity. Qed.

Lemma attestations_at_absent s h :
  attestations s !! h = None -> attestations_at s h = zero_attestation.
Proof. intros E. unfold attestations_at. rewrite E. reflexivity. Qed.

Lemma not_saturated_constructor env a : not_saturated (constructor env) a.
Proof.
  unfold not_saturated. rewrite ownerPhotoCount_at_constructor.
  cbn [constructor photoCount]. unfold MAX_UINT256. lia.
Qed.

(** *** [record]: the same, with the submitter and the clock as arguments *)

Lemma record_ok id c o t s :
  not_saturated s o ->
  record id c o t s =
  Ok (t, after_verifyPhoto {| msg_sender := o; block_timestamp := t |} id c s).
Proof.
  intros Hs. unfold record.
  apply (verifyPhoto_ok {| msg_sender := o; block_timestamp := t |}), Hs.
Qed.

Lemma record_inv id c o t s r s' :
  record id c o t s = Ok (r, s') ->
  r = t /\
  s' = after_verifyPhoto {| msg_sender := o; block_timestamp := t |} id c s /\
  not_saturated s o.
Proof.
  unfold record. intros H. apply verifyPhoto_inv in H. exact H.
Qed.

(** *** Write, then read *)

(** C1, with the timestamp's part made explicit.  A [record] by [o] goes
    through in every state where neither of [o]'s two counters is at its
    maximum; whenever it goes through it returns the timestamp [t], and
    right after it [getAttestation id] is [(t, o, c)] and [getOwnerOf id]
    is [o].  [isVerified id] is then true exactly when [t] is positive:
    it tests [verifiedAt > 0]. *)
Theorem record_then_read (s : Storage) (id c o t : Z) :
  (not_saturated s o -> exists s', record id c o t s = Ok (t, s')) /\
  (forall r s', record id c o t s = Ok (r, s') ->
     r = t /\
     getAttestation s' id = (t, o, c) /\
     getOwnerOf s' id = o /\
     (isVerified s' id = true <-> 0 < t)).
Proof.
  split.
  - intros Hs. eexists. apply record_ok, Hs.
  - intros r s' H. apply record_inv in H as (-> & -> & _).
    unfold getAttestation, getOwnerOf, isVerified.
    rewrite attestations_at_after_eq. cbn.
    repeat split; try reflexivity.
    + intros Ht. destruct t; [discriminate| lia | discriminate].
    + intros Ht. destruct t; [lia | reflexivity | lia].
Qed.

Lemma record_then_read_witness :
  (exists s', record 7 9 5 1000 (constructor env0) = Ok (1000, s')) /\
  (forall r s', record 7 9 5 1000 (constructor env0) = Ok (r, s') ->
     r = 1000 /\
     getAttestation s' 7 = (1000, 5, 9) /\
     getOwnerOf s' 7 = 5 /\
     (isVerified s' 7 = true <-> 0 < 1000)).
Proof.
  destruct (record_then_read (constructor env0) 7 9 5 1000) as [H1 H2].
  split; [apply H1, not_saturated_constructor | exact H2].
Defined.

(** C1 as it is worded fails for the timestamp 0: the record is stored
    and read back, and [isVerified] answers false. *)
Lemma record_then_read_counterexample :
  exists s', record 7 9 5 0 (constructor env0) = Ok (0, s') /\
             getAttestation s' 7 = (0, 5, 9) /\
             isVerified s' 7 = false.
Proof.
  eexists. split; [|split].
  - apply record_ok, not_saturated_constructor.
  - unfold getAttestation. rewrite attestations_at_after_eq. reflexivity.
  - unfold isVerified. rewrite attestations_at_after_eq. reflexivity.
Qed.

(** *** Overwriting *)

(** C3.  On a fresh ledger, a [record] of [id] by [ownerA] followed by a
    [record] of the same [id] by another identity [ownerB]: both go
    through, the ledger then holds for [id] the second record and nothing
    else, each of the two identities has counted one write, and the
    ledger two. *)
Theorem record_overwrite (env : Env) (id c1 c2 ownerA ownerB t1 t2 : Z) :
  ownerA <> ownerB ->
  exists s1 s2,
    record id c1 ownerA t1 (constructor env) = Ok (t1, s1) /\
    record id c2 ownerB t2 s1 = Ok (t2, s2) /\
    getAttestation s2 id = (t2, ownerB, c2) /\
    attestations s2 =
      {[ id := {| verifiedAt := t2; owner := ownerB; zkCommitment := c2 |} ]} /\
    getOwnerPhotoCount s2 ownerA = 1 /\
    getOwnerPhotoCount s2 ownerB = 1 /\
    getPhotoCount s2 = 2.
Proof.
  intros Hne. unfold record.
  set (envA := {| msg_sender := ownerA; block_timestamp := t1 |}).
  set (envB := {| msg_sender := ownerB; block_timestamp := t2 |}).
  set (s1 := after_verifyPhoto envA id c1 (constructor env)).
  assert (HA : ownerPhotoCount_at s1 ownerA = 1).
  { subst s1. rewrite (ownerPhotoCount_at_after_eq envA).
    rewrite ownerPhotoCount_at_constructor. reflexivity. }
  assert (HB : ownerPhotoCount_at s1 ownerB = 0).
  { subst s1. rewrite (ownerPhotoCount_at_after_ne envA) by (cbn; congruence).
    apply ownerPhotoCount_at_constructor. }
  exists s1, (after_verifyPhoto envB id c2 s1).
  split; [apply (verifyPhoto_ok envA), not_saturated_constructor|].
  split.
  { apply (verifyPhoto_ok envB). unfold not_saturated. change (msg_sender envB) with ownerB.
    rewrite HB. cbn. unfold MAX_UINT256. lia. }
  unfold getAttestation, getOwnerPhotoCount, getPhotoCount.
  rewrite (attestations_at_after_eq envB).
  rewrite (ownerPhotoCount_at_after_ne envB) by (cbn; congruence).
  rewrite (ownerPhotoCount_at_after_eq envB).
  change (msg_sender envB) with ownerB. rewrite HA, HB.
  repeat split.
  cbn. rewrite insert_insert_eq, insert_empty. reflexivity.
Qed.

Lemma record_overwrite_witness :
  exists s1 s2,
    record 7 9 5 1000 (constructor env0) = Ok (1000, s1) /\
    record 7 10 6 2000 s1 = Ok (2000, s2) /\
    getAttestation s2 7 = (2000, 6, 10) /\
    attestations s2 =
      {[ 7 := {| verifiedAt := 2000; owner := 6; zkCommitment := 10 |} ]} /\
    getOwnerPhotoCount s2 5 = 1 /\
    getOwnerPhotoCount s2 6 = 1 /\
    getPhotoCount s2 = 2.
Proof.
  apply (record_overwrite env0 7 9 10 5 6 1000 2000). lia.
Defined.

(** With one identity writing twice the count is two, not one: the
    counter counts writes, not identifiers. *)
Lemma record_overwrite_same_owner (env : Env) (id c1 c2 o t1 t2 : Z) :
  exists s1 s2,
    record id c1 o t1 (constructor env) = Ok (t1, s1) /\
    record id c2 o t2 s1 = Ok (t2, s2) /\
    getOwnerPhotoCount s2 o = 2 /\ getPhotoCount s2 = 2.
Proof.
  unfold record.
  set (e1 := {| msg_sender := o; block_timestamp := t1 |}).
  set (e2 := {| msg_sender := o; block_timestamp := t2 |}).
  set (s1 := after_verifyPhoto e1 id c1 (constructor env)).
  assert (H1 : ownerPhotoCount_at s1 o = 1).
  { subst s1. rewrite (ownerPhotoCount_at_after_eq e1).
    rewrite ownerPhotoCount_at_constructor. reflexivity. }
  exists s1, (after_verifyPhoto e2 id c2 s1).
  split; [apply (verifyPhoto_ok e1), not_saturated_constructor|].
  split.
  { apply (verifyPhoto_ok e2). unfold not_saturated. change (msg_sender e2) with o.
    rewrite H1. cbn. unfold MAX_UINT256. lia. }
  unfold getOwnerPhotoCount, getPhotoCount.
  rewrite (ownerPhotoCount_at_after_eq e2).
  change (msg_sender e2) with o. rewrite H1.
  split; reflexivity.
Qed.

(** *** What a write leaves alone *)

(** C8.  A [record] that goes through leaves the attestation of every
    other identifier and the count of every other identity as they were,
    and the contract's owner too; it adds exactly one to the submitter's
    count and to the global count, whether or not [id] was attested
    before. *)
Theorem record_frame (s : Storage) (id c o t r : Z) (s' : Storage) :
  record id c o t s = Ok (r, s') ->
  (forall id', id' <> id -> getAttestation s' id' = getAttestation s id') /\
  (forall id', id' <> id -> attestations s' !! id' = attestations s !! id') /\
  (forall o', o' <> o -> getOwnerPhotoCount s' o' = getOwnerPhotoCount s o') /\
  getOwnerPhotoCount s' o = getOwnerPhotoCount s o + 1 /\
  getPhotoCount s' = getPhotoCount s + 1 /\
  contractOwner s' = contractOwner s.
Proof.
  intros H. apply record_inv in H as (_ & -> & _).
  unfold getAttestation, getOwnerPhotoCount, getPhotoCount.
  repeat split.
  - intros id' Hne. rewrite attestations_at_after_ne by exact Hne. reflexivity.
  - intros id' Hne. cbn. rewrite lookup_insert_ne by congruence. reflexivity.
  - intros o' Hne. rewrite ownerPhotoCount_at_after_ne by exact Hne. reflexivity.
  - apply (ownerPhotoCount_at_after_eq {| msg_sender := o; block_timestamp := t |}).
Qed.

Lemma record_frame_witness :
  let s1 := after_verifyPhoto {| msg_sender := 5; block_timestamp := 1000 |} 7 9
                              (after_writes 3) in
  record 7 9 5 1000 (after_writes 3) = Ok (1000, s1) /\
  (forall id', id' <> 7 -> getAttestation s1 id' = getAttestation (after_writes 3) id') /\
  (forall id', id' <> 7 -> attestations s1 !! id' = attestations (after_writes 3) !! id') /\
  (forall o', o' <> 5 -> getOwnerPhotoCount s1 o' = getOwnerPhotoCount (after_writes 3) o') /\
  getOwnerPhotoCount s1 5 = getOwnerPhotoCount (after_writes 3) 5 + 1 /\
  getPhotoCount s1 = getPhotoCount (after_writes 3) + 1 /\
  contractOwner s1 = contractOwner (after_writes 3).
Proof.
  intros s1.
  assert (H : record 7 9 5 1000 (after_writes 3) = Ok (1000, s1)).
  { apply record_ok. split; vm_compute; reflexivity. }
  split; [exact H|].
  exact (record_frame (after_writes 3) 7 9 5 1000 1000 s1 H).
Defined.

(** *** The calls and the states they reach *)

Lemma execute_storage env c s r s' :
  execute env c s = Ok (r, s') ->
  s' = s \/
  exists h z, c = call_verifyPhoto h z /\
              verifyPhoto env h z s = Ok (block_timestamp env, s').
Proof.
  destruct c; cbn [execute]; unfold mbind, tx_bind, sload, mret, tx_ret;
    try (intros [= <- <-]; left; reflexivity).
  intros H. right. exists photoHash, zkCommitment0. split; [reflexivity|].
  destruct (verifyPhoto env photoHash zkCommitment0 s) as [[t s'']|e] eqn:E;
    [|discriminate].
  injection H as <- <-.
  apply verifyPhoto_inv in E as E'. destruct E' as (-> & _ & _). reflexivity.
Qed.

Lemma wf_storage_constructor env : wf_storage (constructor env).
Proof.
  split; [|split].
  - intros h att H. cbn in H. rewrite lookup_empty in H. discriminate.
  - intros a. rewrite ownerPhotoCount_at_constructor. cbn. lia.
  - cbn. unfold MAX_UINT256. lia.
Qed.

Lemma wf_storage_verifyPhoto env h z s s' :
  wf_env env -> is_uint256 z ->
  wf_storage s ->
  verifyPhoto env h z s = Ok (block_timestamp env, s') ->
  wf_storage s'.
Proof.
  intros [Hsender Htime] Hz (Hatt & Hcnt & Hmax) H.
  apply verifyPhoto_inv in H as (_ & -> & Hsat & Hsat').
  split; [|split].
  - intros h' att. cbn [after_verifyPhoto attestations].
    rewrite lookup_insert. case_decide.
    + intros [= <-]. cbn. auto.
    + apply Hatt.
  - intros a. cbn [after_verifyPhoto photoCount].
    destruct (decide (a = msg_sender env)) as [->|Hne].
    + rewrite ownerPhotoCount_at_after_eq. specialize (Hcnt (msg_sender env)). lia.
    + rewrite ownerPhotoCount_at_after_ne by exact Hne. specialize (Hcnt a). lia.
  - cbn [after_verifyPhoto photoCount]. lia.
Qed.

Lemma reachable_wf_storage s : reachable s -> wf_storage s.
Proof.
  induction 1 as [env Henv | s env c r s' Hs IH Henv Hc Hex].
  - apply wf_storage_constructor.
  - apply execute_storage in Hex as [-> | (h & z & -> & Hv)]; [exact IH|].
    destruct Hc as [_ Hz]. exact (wf_storage_verifyPhoto env h z s s' Henv Hz IH Hv).
Qed.

Lemma execute_verifyPhoto env h z s t s' :
  verifyPhoto env h z s = Ok (t, s') ->
  execute env (call_verifyPhoto h z) s = Ok (ret_uint256 t, s').
Proof.
  intros H. cbn [execute]. unfold mbind, tx_bind. rewrite H. reflexivity.
Qed.

(** *** A ledger written to [n] times *)

Lemma wf_env0 : wf_env env0.
Proof. unfold wf_env, is_address, is_uint256, MAX_UINT256. cbn. lia. Qed.

Lemma ownerPhotoCount_at_after_writes n : ownerPhotoCount_at (after_writes n) 0 = n.
Proof.
  unfold ownerPhotoCount_at, after_writes. cbn [ownerPhotoCount].
  rewrite lookup_singleton_eq. reflexivity.
Qed.

Lemma first_write :
  verifyPhoto env0 0 0 (constructor env0) = Ok (0, after_writes 1).
Proof.
  rewrite verifyPhoto_ok by apply not_saturated_constructor.
  unfold after_verifyPhoto, after_writes. rewrite ownerPhotoCount_at_constructor.
  cbn. rewrite !insert_empty. reflexivity.
Qed.

Lemma next_write n :
  n < MAX_UINT256 ->
  verifyPhoto env0 0 0 (after_writes n) = Ok (0, after_writes (n + 1)).
Proof.
  intros Hn. rewrite verifyPhoto_ok.
  - unfold after_verifyPhoto. change (msg_sender env0) with 0.
    rewrite ownerPhotoCount_at_after_writes.
    unfold after_writes. cbn. rewrite !insert_singleton_eq. reflexivity.
  - split; [change (msg_sender env0) with 0; rewrite ownerPhotoCount_at_after_writes|];
      exact Hn.
Qed.

Lemma reachable_after_writes n :
  1 <= n <= MAX_UINT256 -> reachable (after_writes n).
Proof.
  intros Hn. replace n with (1 + Z.of_nat (Z.to_nat (n - 1))) in * by lia.
  induction (Z.to_nat (n - 1)) as [|k IH].
  - apply (reachable_call (constructor env0) env0 (call_verifyPhoto 0 0)
                          (ret_uint256 0)).
    + apply reachable_constructor, wf_env0.
    + apply wf_env0.
    + cbn. unfold is_uint256, MAX_UINT256. lia.
    + apply execute_verifyPhoto, first_write.
  - replace (1 + Z.of_nat (S k)) with (1 + Z.of_nat k + 1) in * by lia.
    apply (reachable_call (after_writes (1 + Z.of_nat k)) env0 (call_verifyPhoto 0 0)
                          (ret_uint256 0)).
    + apply IH. lia.
    + apply wf_env0.
    + cbn. unfold is_uint256, MAX_UINT256. lia.
    + apply execute_verifyPhoto, next_write. lia.
Qed.

(** *** When a write goes through *)

(** C7.  In a reachable state whose global count is below 2^256 - 1,
    that is after fewer than 2^256 - 1 writes, [verifyPhoto] goes through
    for every sender, block, identifier and commitment, and returns the
    block's timestamp: it looks at neither the sender nor the record
    already stored, so any identity may attest or overwrite any
    identifier.  The call has no failure of its own: in a reachable state
    a revert can only be the [Panic(0x11)] of the checked increment, with
    the global count at 2^256 - 1. *)
Theorem verifyPhoto_succeeds (s : Storage) (env : Env) (photoHash zkc : Z) :
  reachable s ->
  (photoCount s < MAX_UINT256 ->
     verifyPhoto env photoHash zkc s =
     Ok (block_timestamp env, after_verifyPhoto env photoHash zkc s)) /\
  (forall e,
     verifyPhoto env photoHash zkc s = Revert e ->
     e = Panic 0x11 /\ photoCount s = MAX_UINT256).
Proof.
  intros Hs. apply reachable_wf_storage in Hs as (_ & Hcnt & Hmax).
  assert (Hok : photoCount s < MAX_UINT256 ->
                verifyPhoto env photoHash zkc s =
                Ok (block_timestamp env, after_verifyPhoto env photoHash zkc s)).
  { intros Hlt. apply verifyPhoto_ok. split; [|exact Hlt].
    specialize (Hcnt (msg_sender env)). lia. }
  split; [exact Hok|].
  intros e He. destruct (Z.eq_dec (photoCount s) MAX_UINT256) as [Heq|Hne].
  - split; [|exact Heq].
    rewrite verifyPhoto_saturated in He by (intros [_ Hp]; lia).
    injection He as <-. reflexivity.
  - rewrite Hok in He by lia. discriminate He.
Qed.

Lemma verifyPhoto_succeeds_witness :
  verifyPhoto {| msg_sender := 5; block_timestamp := 1000 |} 0 9 (after_writes 3) =
  Ok (1000, after_verifyPhoto {| msg_sender := 5; block_timestamp := 1000 |} 0 9
                                (after_writes 3)).
Proof.
  assert (Hr : reachable (after_writes 3)).
  { apply reachable_after_writes. unfold MAX_UINT256. lia. }
  destruct (verifyPhoto_succeeds (after_writes 3)
              {| msg_sender := 5; block_timestamp := 1000 |} 0 9 Hr) as (H & _).
  apply H. vm_compute. reflexivity.
Defined.

(** *** The global count is the sum of the identities' counts *)

Lemma sum_insert (m : gmap Z Z) (k v : Z) :
  map_fold (fun _ n acc => n + acc) 0 (<[k := v]> m) =
  map_fold (fun _ n acc => n + acc) 0 m - default 0 (m !! k) + v.
Proof.
  destruct (m !! k) as [x|] eqn:E; cbn [default].
  - rewrite <- (insert_delete_eq m k v).
    rewrite map_fold_insert_L; [| intros; lia | apply lookup_delete_eq].
    rewrite (map_fold_delete_L _ _ k x m); [cbv beta; unfold id; lia | intros; lia | exact E].
  - rewrite map_fold_insert_L; [cbv beta; unfold id; lia | intros; lia | exact E].
Qed.

(** C9.  The constructor establishes [photoCount = sum of
    ownerPhotoCount], every call that goes through keeps it (a call that
    reverts writes nothing), and so it holds in every reachable state. *)
Theorem photoCount_is_sum :
  (forall env, photoCount (constructor env) = sum_ownerPhotoCount (constructor env)) /\
  (forall env c s r s',
     photoCount s = sum_ownerPhotoCount s ->
     execute env c s = Ok (r, s') ->
     photoCount s' = sum_ownerPhotoCount s') /\
  (forall s, reachable s -> photoCount s = sum_ownerPhotoCount s).
Proof.
  assert (Hinit : forall env,
             photoCount (constructor env) = sum_ownerPhotoCount (constructor env)).
  { intros env. unfold sum_ownerPhotoCount. cbn. rewrite map_fold_empty. reflexivity. }
  assert (Hstep : forall env c s r s',
             photoCount s = sum_ownerPhotoCount s ->
             execute env c s = Ok (r, s') ->
             photoCount s' = sum_ownerPhotoCount s').
  { intros env c s r s' Hinv Hex.
    apply execute_storage in Hex as [-> | (h & z & -> & Hv)]; [exact Hinv|].
    apply verifyPhoto_inv in Hv as (_ & -> & _).
    unfold sum_ownerPhotoCount in *. cbn [after_verifyPhoto photoCount ownerPhotoCount].
    rewrite sum_insert. unfold ownerPhotoCount_at. lia. }
  split; [exact Hinit|]. split; [exact Hstep|].
  induction 1 as [env Henv | s env c r s' Hs IH Henv Hc Hex].
  - apply Hinit.
  - exact (Hstep env c s r s' IH Hex).
Qed.

Lemma photoCount_is_sum_witness :
  photoCount (after_writes 3) = sum_ownerPhotoCount (after_writes 3).
Proof.
  apply (proj2 (proj2 photoCount_is_sum)).
  apply reachable_after_writes. unfold MAX_UINT256. lia.
Defined.

(** *** The commitment *)

Lemma computeCommitment_range (photoHash secret : Z) :
  is_uint256 (computeCommitment photoHash secret).
Proof.
  unfold computeCommitment, uint256_of_bytes32, is_uint256.
  pose proof (BytesFacts.be_to_Z_bound
                (Keccak.keccak256 (abi_encodePacked [photoHash; secret]))) as H.
  rewrite KeccakFacts.length_keccak256, BytesFacts.pow_256_32 in H. lia.
Qed.

Lemma abi_encodePacked_two (a b : Z) :
  abi_encodePacked [a; b] = be_bytes 32 a ++ be_bytes 32 b.
Proof. unfold abi_encodePacked. cbn [flat_map]. rewrite app_nil_r. reflexivity. Qed.

(** C5.  [computeCommitment] is the hash of the 64 bytes made of the
    identifier's 32 bytes and then the secret's 32 bytes, with nothing
    before, between or after them, the digest read as an integer below
    2^256.  Called as a transaction it returns that value in every state
    and for every sender and block, and it leaves the storage as it is. *)
Theorem computeCommitment_is_hash (photoHash secret : Z) :
  computeCommitment photoHash secret = commitment_by_spec photoHash secret /\
  (let data := abi_encodePacked [photoHash; secret] in
   length data = 64%nat /\
   firstn 32 data = be_bytes 32 photoHash /\
   skipn 32 data = be_bytes 32 secret) /\
  is_uint256 (computeCommitment photoHash secret) /\
  (forall env s,
     execute env (call_computeCommitment photoHash secret) s =
     Ok (ret_uint256 (computeCommitment photoHash secret), s)).
Proof.
  split; [|split; [|split]].
  - unfold computeCommitment, commitment_by_spec, uint256_of_bytes32.
    rewrite abi_encodePacked_two. reflexivity.
  - cbv zeta. rewrite abi_encodePacked_two. split; [|split].
    + rewrite length_app, !BytesFacts.length_be_bytes. reflexivity.
    + apply take_app_length'. rewrite BytesFacts.length_be_bytes. reflexivity.
    + apply drop_app_length'. rewrite BytesFacts.length_be_bytes. reflexivity.
  - apply computeCommitment_range.
  - intros env s. reflexivity.
Qed.

(** The commitment of identifier 0 and secret 0 is the digest of 64 zero
    bytes. *)
Example computeCommitment_0_0 :
  computeCommitment 0 0 =
  0xad3228b676f7d3cd4284a5443f17f1962b36e491b30a40b2405849e597ba5fb5.
Proof. vm_compute. reflexivity. Qed.

(** *** Proof of ownership *)

Lemma verifyZkProof_true s photoHash secret :
  verifyZkProof s photoHash secret = true <->
  computeCommitment photoHash secret = zkCommitment (attestations_at s photoHash).
Proof. unfold verifyZkProof. apply Z.eqb_eq. Qed.

Lemma stored_commitment_range s photoHash :
  reachable s -> is_uint256 (zkCommitment (attestations_at s photoHash)).
Proof.
  intros Hs. apply reachable_wf_storage in Hs as (Hatt & _ & _).
  unfold attestations_at.
  destruct (attestations s !! photoHash) as [att|] eqn:E; cbn.
  - apply (Hatt _ _ E).
  - unfold is_uint256, MAX_UINT256. lia.
Qed.

(** C4.  In a reachable state [verifyZkProof] answers true exactly when
    the recomputed commitment is the stored one: the same integer, which
    for these 256-bit values is the same 32 bytes. *)
Theorem verifyZkProof_exact (s : Storage) (photoHash secret : Z) :
  reachable s ->
  (verifyZkProof s photoHash secret = true <->
   computeCommitment photoHash secret = zkCommitment (attestations_at s photoHash)) /\
  (verifyZkProof s photoHash secret = true <->
   be_bytes 32 (computeCommitment photoHash secret) =
   be_bytes 32 (zkCommitment (attestations_at s photoHash))).
Proof.
  intros Hs. split; [apply verifyZkProof_true|].
  rewrite verifyZkProof_true. split.
  - intros ->. reflexivity.
  - apply BytesFacts.be_bytes_uint256_inj.
    + apply computeCommitment_range.
    + apply stored_commitment_range, Hs.
Qed.

Lemma verifyZkProof_exact_witness :
  (verifyZkProof (after_writes 3) 0 0 = true <->
   computeCommitment 0 0 = zkCommitment (attestations_at (after_writes 3) 0)) /\
  (verifyZkProof (after_writes 3) 0 0 = true <->
   be_bytes 32 (computeCommitment 0 0) =
   be_bytes 32 (zkCommitment (attestations_at (after_writes 3) 0))).
Proof.
  apply (verifyZkProof_exact (after_writes 3) 0 0).
  apply reachable_after_writes. unfold MAX_UINT256. lia.
Defined.

(** What the reads answer for an identifier that was never written. *)
Lemma absent_reads s photoHash :
  attestations s !! photoHash = None ->
  getAttestation s photoHash = (0, 0, 0) /\
  isVerified s photoHash = false /\
  getOwnerOf s photoHash = 0 /\
  forall secret,
    verifyZkProof s photoHash secret = (computeCommitment photoHash secret =? 0).
Proof.
  intros E. unfold getAttestation, isVerified, getOwnerOf, verifyZkProof.
  rewrite (attestations_at_absent _ _ E). cbn [zero_attestation verifiedAt owner zkCommitment].
  repeat split.
Qed.

(** C10.  When [id] was recorded with the commitment 0, [verifyZkProof]
    answers for [id] what it answers on a ledger where [id] was never
    written: true exactly when the commitment of [id] and the secret is
    0. *)
Theorem zero_commitment_as_absent (s0 s1 s_abs : Storage) (id o t secret : Z) :
  record id 0 o t s0 = Ok (t, s1) ->
  attestations s_abs !! id = None ->
  verifyZkProof s1 id secret = verifyZkProof s_abs id secret /\
  (verifyZkProof s1 id secret = true <-> computeCommitment id secret = 0).
Proof.
  intros H Habs. apply record_inv in H as (_ & -> & _).
  destruct (absent_reads s_abs id Habs) as (_ & _ & _ & Hv).
  rewrite Hv. unfold verifyZkProof. rewrite attestations_at_after_eq.
  cbn [zkCommitment]. split; [reflexivity | apply Z.eqb_eq].
Qed.

Lemma zero_commitment_as_absent_witness :
  let s1 := after_verifyPhoto {| msg_sender := 5; block_timestamp := 1000 |} 7 0
                              (constructor env0) in
  verifyZkProof s1 7 9 = verifyZkProof (constructor env0) 7 9 /\
  (verifyZkProof s1 7 9 = true <-> computeCommitment 7 9 = 0).
Proof.
  intros s1.
  apply (zero_commitment_as_absent (constructor env0) s1 (constructor env0) 7 5 1000 9).
  - apply record_ok, not_saturated_constructor.
  - reflexivity.
Defined.

(** *** Record a commitment, then prove ownership *)

Lemma commitments_of_22_and_33_differ :
  (computeCommitment bytes32_11 bytes32_33 =? computeCommitment bytes32_11 bytes32_22)
  = false.
Proof. vm_compute. reflexivity. Qed.

(** C6.  After a [record] of [id] with the commitment of [id] and a
    secret, [verifyZkProof] of [id] and that secret answers true.  On a
    fresh ledger, with the identifier 0x11..11, the secret 0x22..22, any
    submitter [A] and the timestamp 1000: the [record] goes through, the
    proof with 0x22..22 is accepted, the proof with 0x33..33 is refused,
    and [A] has counted one write. *)
Theorem record_then_verify :
  (forall s id secret o t r s',
     record id (computeCommitment id secret) o t s = Ok (r, s') ->
     verifyZkProof s' id secret = true) /\
  (forall env A,
     exists s1,
       record bytes32_11 (computeCommitment bytes32_11 bytes32_22) A 1000
              (constructor env) = Ok (1000, s1) /\
       verifyZkProof s1 bytes32_11 bytes32_22 = true /\
       verifyZkProof s1 bytes32_11 bytes32_33 = false /\
       getOwnerPhotoCount s1 A = 1).
Proof.
  assert (Hgen : forall s id secret o t r s',
             record id (computeCommitment id secret) o t s = Ok (r, s') ->
             verifyZkProof s' id secret = true).
  { intros s id secret o t r s' H. apply record_inv in H as (_ & -> & _).
    unfold verifyZkProof. rewrite attestations_at_after_eq.
    cbn [zkCommitment]. apply Z.eqb_refl. }
  split; [exact Hgen|].
  intros env A. eexists. split; [apply record_ok, not_saturated_constructor|].
  split; [|split].
  - eapply Hgen. apply record_ok, not_saturated_constructor.
  - unfold verifyZkProof. rewrite attestations_at_after_eq.
    cbn [zkCommitment]. apply commitments_of_22_and_33_differ.
  - unfold getOwnerPhotoCount.
    rewrite (ownerPhotoCount_at_after_eq {| msg_sender := A; block_timestamp := 1000 |}).
    cbn [msg_sender]. rewrite ownerPhotoCount_at_constructor. reflexivity.
Qed.

Lemma record_then_verify_witness :
  verifyZkProof
    (after_verifyPhoto {| msg_sender := 5; block_timestamp := 1000 |} 7
                       (computeCommitment 7 9) (after_writes 3)) 7 9 = true.
Proof.
  apply (proj1 record_then_verify (after_writes 3) 7 9 5 1000 1000).
  apply record_ok. split; vm_compute; reflexivity.
Defined.

End LedgerFacts.

(** ** Histories: how the calls compose *)

Module HistoryFacts.
Import Bytes Solidity PhotoVerifierSolidity Scenario History.
Import LedgerFacts.

Lemma writes_nonneg txs : 0 <= writes txs.
Proof.
  induction txs as [|[env c] rest IH]; cbn [writes]; [lia|].
  destruct c; lia.
Qed.

Lemma writes_by_nonneg a txs : 0 <= writes_by a txs.
Proof.
  induction txs as [|[env c] rest IH]; cbn [writes_by]; [lia|].
  destruct c; try lia. destruct (msg_sender env =? a); lia.
Qed.

Lemma execute_view env c s :
  (forall h z, c <> call_verifyPhoto h z) ->
  exists r, execute env c s = Ok (r, s).
Proof.
  intros Hc. destruct c; cbn [execute]; unfold mbind, tx_bind, sload, mret, tx_ret;
    try (eexists; reflexivity).
  exfalso. exact (Hc _ _ eq_refl).
Qed.

Lemma run_cons_write env h z rest s :
  not_saturated s (msg_sender env) ->
  run ((env, call_verifyPhoto h z) :: rest) s = run rest (after_verifyPhoto env h z s).
Proof.
  intros Hs. cbn [run].
  rewrite (execute_verifyPhoto env h z s _ _ (verifyPhoto_ok env h z s Hs)).
  reflexivity.
Qed.

Lemma run_cons_reverted env h z rest s :
  ~ not_saturated s (msg_sender env) ->
  run ((env, call_verifyPhoto h z) :: rest) s = run rest s.
Proof.
  intros Hs. cbn [run execute]. unfold mbind, tx_bind.
  rewrite (verifyPhoto_saturated env h z s Hs). reflexivity.
Qed.

Lemma run_cons_view env c rest s :
  (forall h z, c <> call_verifyPhoto h z) ->
  run ((env, c) :: rest) s = run rest s.
Proof.
  intros Hc. cbn [run]. destruct (execute_view env c s Hc) as [r ->]. reflexivity.
Qed.

(** X1.  The counters count the writes.  From a state where no
    identity's count exceeds the global count, and with room left for
    all the writes of the list below 2^256, the global count grows by the
    number of [verifyPhoto] transactions and each identity's count by the
    number of those it sent; the other calls count for nothing. *)
Theorem run_counts (txs : list (Env * call)) (s : Storage) :
  (forall a, ownerPhotoCount_at s a <= photoCount s) ->
  photoCount s + writes txs <= MAX_UINT256 ->
  getPhotoCount (run txs s) = getPhotoCount s + writes txs /\
  (forall a, getOwnerPhotoCount (run txs s) a =
             getOwnerPhotoCount s a + writes_by a txs).
Proof.
  unfold getPhotoCount, getOwnerPhotoCount.
  revert s. induction txs as [|[env c] rest IH]; intros s Hle Hroom.
  - cbn. split; [|intros a]; lia.
  - pose proof (writes_nonneg rest) as Hnn.
    destruct c;
      try (rewrite run_cons_view by (intros ? ?; discriminate);
           cbn [writes writes_by] in *; apply IH; assumption).
    cbn [writes writes_by] in *.
    assert (Hs : not_saturated s (msg_sender env)).
    { split; [specialize (Hle (msg_sender env))|]; lia. }
    rewrite run_cons_write by exact Hs.
    destruct (IH (after_verifyPhoto env photoHash zkCommitment0 s)) as [IH1 IH2].
    + intros a. cbn [after_verifyPhoto photoCount].
      destruct (decide (a = msg_sender env)) as [->|Hne].
      * rewrite ownerPhotoCount_at_after_eq. specialize (Hle (msg_sender env)). lia.
      * rewrite ownerPhotoCount_at_after_ne by exact Hne. specialize (Hle a). lia.
    + cbn [after_verifyPhoto photoCount]. lia.
    + split.
      * rewrite IH1. cbn [after_verifyPhoto photoCount]. lia.
      * intros a. rewrite IH2.
        destruct (Z.eqb_spec (msg_sender env) a) as [<-|Hne].
        -- rewrite ownerPhotoCount_at_after_eq. lia.
        -- rewrite ownerPhotoCount_at_after_ne by congruence. lia.
Qed.

Lemma run_counts_witness :
  getPhotoCount
    (run [ ({| msg_sender := 5; block_timestamp := 1000 |}, call_verifyPhoto 7 9);
           ({| msg_sender := 6; block_timestamp := 1001 |}, call_isVerified 7);
           ({| msg_sender := 5; block_timestamp := 1002 |}, call_verifyPhoto 8 9) ]
         (constructor env0)) = 2 /\
  getOwnerPhotoCount
    (run [ ({| msg_sender := 5; block_timestamp := 1000 |}, call_verifyPhoto 7 9);
           ({| msg_sender := 6; block_timestamp := 1001 |}, call_isVerified 7);
           ({| msg_sender := 5; block_timestamp := 1002 |}, call_verifyPhoto 8 9) ]
         (constructor env0)) 6 = 0.
Proof.
  destruct (run_counts
              [ ({| msg_sender := 5; block_timestamp := 1000 |}, call_verifyPhoto 7 9);
                ({| msg_sender := 6; block_timestamp := 1001 |}, call_isVerified 7);
                ({| msg_sender := 5; block_timestamp := 1002 |}, call_verifyPhoto 8 9) ]
              (constructor env0)) as [H1 H2].
  - intros a. rewrite ownerPhotoCount_at_constructor. cbn. lia.
  - vm_compute. discriminate.
  - split; [exact H1 | exact (H2 6)].
Defined.

Lemma counts_bounded_after env h z s :
  (forall a, ownerPhotoCount_at s a <= photoCount s) ->
  forall a, ownerPhotoCount_at (after_verifyPhoto env h z s) a <=
            photoCount (after_verifyPhoto env h z s).
Proof.
  intros Hle a. cbn [after_verifyPhoto photoCount].
  destruct (decide (a = msg_sender env)) as [->|Hne].
  - rewrite ownerPhotoCount_at_after_eq. specialize (Hle (msg_sender env)). lia.
  - rewrite ownerPhotoCount_at_after_ne by exact Hne. specialize (Hle a). lia.
Qed.

(** X2.  The last writer wins, whatever came before.  Under the same
    conditions as for the counts, what [getAttestation] returns for an
    identifier after a list of transactions is the record of the latest
    [verifyPhoto] of that identifier in the list: its block's timestamp,
    its sender, its commitment.  When the list has none, the answer is
    what it was before the list. *)
Theorem run_last_write (txs : list (Env * call)) (s : Storage) (photoHash : Z) :
  (forall a, ownerPhotoCount_at s a <= photoCount s) ->
  photoCount s + writes txs <= MAX_UINT256 ->
  getAttestation (run txs s) photoHash =
  match last_write photoHash txs with
  | Some att => (verifiedAt att, owner att, zkCommitment att)
  | None => getAttestation s photoHash
  end.
Proof.
  revert s. induction txs as [|[env c] rest IH]; intros s Hle Hroom.
  - reflexivity.
  - pose proof (writes_nonneg rest) as Hnn.
    destruct c;
      try (rewrite run_cons_view by (intros ? ?; discriminate);
           cbn [writes last_write write_at] in *;
           rewrite IH by assumption;
           destruct (last_write photoHash rest); reflexivity).
    cbn [writes] in Hroom.
    assert (Hs : not_saturated s (msg_sender env)).
    { split; [specialize (Hle (msg_sender env))|]; lia. }
    rewrite run_cons_write by exact Hs.
    rewrite IH.
    + cbn [last_write write_at].
      destruct (last_write photoHash rest) as [att|]; [reflexivity|].
      unfold getAttestation.
      destruct (Z.eqb_spec photoHash0 photoHash) as [->|Hne].
      * rewrite attestations_at_after_eq. reflexivity.
      * rewrite attestations_at_after_ne by congruence. reflexivity.
    + apply counts_bounded_after, Hle.
    + cbn [after_verifyPhoto photoCount]. lia.
Qed.

Lemma run_last_write_witness :
  getAttestation
    (run [ ({| msg_sender := 5; block_timestamp := 1000 |}, call_verifyPhoto 7 9);
           ({| msg_sender := 6; block_timestamp := 1001 |}, call_verifyPhoto 7 10);
           ({| msg_sender := 5; block_timestamp := 1002 |}, call_verifyPhoto 8 11) ]
         (constructor env0)) 7 = (1001, 6, 10).
Proof.
  apply (run_last_write
           [ ({| msg_sender := 5; block_timestamp := 1000 |}, call_verifyPhoto 7 9);
             ({| msg_sender := 6; block_timestamp := 1001 |}, call_verifyPhoto 7 10);
             ({| msg_sender := 5; block_timestamp := 1002 |}, call_verifyPhoto 8 11) ]
           (constructor env0) 7).
  - intros a. rewrite ownerPhotoCount_at_constructor. cbn. lia.
  - vm_compute. discriminate.
Defined.

Lemma execute_contractOwner env c s r s' :
  execute env c s = Ok (r, s') -> contractOwner s' = contractOwner s.
Proof.
  intros H. apply execute_storage in H as [-> | (h & z & -> & Hv)]; [reflexivity|].
  apply verifyPhoto_inv in Hv as (_ & -> & _). reflexivity.
Qed.

(** X3.  The contract's owner is set once.  No list of transactions,
    whoever sends them, changes the state variable [owner]: after any
    history it is still the sender of the deployment. *)
Theorem run_contractOwner (txs : list (Env * call)) :
  (forall s, contractOwner (run txs s) = contractOwner s) /\
  (forall env, contractOwner (run txs (constructor env)) = msg_sender env).
Proof.
  assert (H : forall s, contractOwner (run txs s) = contractOwner s).
  { induction txs as [|[env c] rest IH]; intros s; [reflexivity|].
    cbn [run]. destruct (execute env c s) as [[r s']|e] eqn:E.
    - rewrite IH. exact (execute_contractOwner env c s r s' E).
    - apply IH. }
  split; [exact H|]. intros env. rewrite H. reflexivity.
Qed.

Lemma execute_keeps_entries env c s r s' h :
  execute env c s = Ok (r, s') ->
  is_Some (attestations s !! h) -> is_Some (attestations s' !! h).
Proof.
  intros H. apply execute_storage in H as [-> | (h' & z & -> & Hv)]; [tauto|].
  apply verifyPhoto_inv in Hv as (_ & -> & _).
  cbn [after_verifyPhoto attestations]. rewrite lookup_insert.
  case_decide; [eauto | tauto].
Qed.

Lemma execute_keeps_verified env c s r s' h :
  0 < block_timestamp env ->
  execute env c s = Ok (r, s') ->
  isVerified s h = true -> isVerified s' h = true.
Proof.
  intros Ht H. apply execute_storage in H as [-> | (h' & z & -> & Hv)]; [tauto|].
  apply verifyPhoto_inv in Hv as (_ & -> & _).
  unfold isVerified. destruct (decide (h = h')) as [->|Hne].
  - rewrite attestations_at_after_eq. cbn [verifiedAt]. intros _.
    apply Z.gtb_lt. exact Ht.
  - rewrite attestations_at_after_ne by exact Hne. tauto.
Qed.

(** X4.  Nothing is ever deleted.  An identifier that has a stored
    record keeps one through every history.  An identifier for which
    [isVerified] is true keeps that answer through every history whose
    blocks have positive timestamps. *)
Theorem run_keeps_attested (txs : list (Env * call)) (s : Storage) (photoHash : Z) :
  (is_Some (attestations s !! photoHash) ->
   is_Some (attestations (run txs s) !! photoHash)) /\
  (positive_timestamps txs ->
   isVerified s photoHash = true ->
   isVerified (run txs s) photoHash = true).
Proof.
  split.
  - revert s. induction txs as [|[env c] rest IH]; intros s Hs; [exact Hs|].
    cbn [run]. destruct (execute env c s) as [[r s']|e] eqn:E.
    + apply IH. exact (execute_keeps_entries env c s r s' photoHash E Hs).
    + apply IH, Hs.
  - intros Hpos. revert s.
    induction Hpos as [|[env c] rest Ht Hrest IH]; intros s Hs; [exact Hs|].
    cbn [run]. cbn [fst] in Ht.
    destruct (execute env c s) as [[r s']|e] eqn:E.
    + apply IH. exact (execute_keeps_verified env c s r s' photoHash Ht E Hs).
    + apply IH, Hs.
Qed.

Lemma run_keeps_attested_witness :
  isVerified
    (run [ ({| msg_sender := 6; block_timestamp := 1001 |}, call_verifyPhoto 7 10);
           ({| msg_sender := 5; block_timestamp := 1002 |}, call_verifyPhoto 8 11) ]
         (after_verifyPhoto {| msg_sender := 5; block_timestamp := 1000 |} 7 9
                            (constructor env0))) 7 = true.
Proof.
  apply (proj2 (run_keeps_attested
                  [ ({| msg_sender := 6; block_timestamp := 1001 |}, call_verifyPhoto 7 10);
                    ({| msg_sender := 5; block_timestamp := 1002 |}, call_verifyPhoto 8 11) ]
                  (after_verifyPhoto {| msg_sender := 5; block_timestamp := 1000 |} 7 9
                                     (constructor env0)) 7)).
  - repeat constructor.
  - unfold isVerified. rewrite attestations_at_after_eq. reflexivity.
Defined.

(** An overwrite in a block whose timestamp is 0 turns [isVerified] back
    to false: the condition on the timestamps is needed. *)
Example overwrite_at_time_zero_unverifies :
  let s := after_verifyPhoto {| msg_sender := 5; block_timestamp := 1000 |} 7 9
                             (constructor env0) in
  isVerified s 7 = true /\
  isVerified (run [ ({| msg_sender := 6; block_timestamp := 0 |}, call_verifyPhoto 7 10) ] s) 7
  = false.
Proof.
  intros s. split.
  - unfold isVerified. subst s. rewrite attestations_at_after_eq. reflexivity.
  - rewrite run_cons_write.
    + cbn [run]. unfold isVerified. rewrite attestations_at_after_eq. reflexivity.
    + split; vm_compute; reflexivity.
Qed.

(** X5.  A full ledger is frozen.  Once the global count is 2^256 - 1,
    no history changes the storage any more: every [verifyPhoto] reverts
    and the other calls only read. *)
Theorem run_saturated (txs : list (Env * call)) (s : Storage) :
  photoCount s = MAX_UINT256 -> run txs s = s.
Proof.
  intros Hmax. induction txs as [|[env c] rest IH]; [reflexivity|].
  destruct c; try (rewrite run_cons_view by (intros ? ?; discriminate); exact IH).
  rewrite run_cons_reverted; [exact IH|]. intros [_ Hp]. lia.
Qed.

Lemma run_saturated_witness :
  run [ ({| msg_sender := 5; block_timestamp := 1000 |}, call_verifyPhoto 7 9);
        (env0, call_getPhotoCount) ]
      (after_writes MAX_UINT256) = after_writes MAX_UINT256.
Proof.
  apply (run_saturated
           [ ({| msg_sender := 5; block_timestamp := 1000 |}, call_verifyPhoto 7 9);
             (env0, call_getPhotoCount) ]
           (after_writes MAX_UINT256)).
  reflexivity.
Defined.

Lemma Storage_eq (s s' : Storage) :
  attestations s = attestations s' ->
  ownerPhotoCount s = ownerPhotoCount s' ->
  contractOwner s = contractOwner s' ->
  photoCount s = photoCount s' ->
  s = s'.
Proof. destruct s, s'. cbn. intros -> -> -> ->. reflexivity. Qed.

Lemma ownerPhotoCount_after env h z s :
  ownerPhotoCount (after_verifyPhoto env h z s) =
  <[msg_sender env := ownerPhotoCount_at s (msg_sender env) + 1]> (ownerPhotoCount s).
Proof. reflexivity. Qed.

Lemma after_verifyPhoto_commute env1 env2 h1 h2 z1 z2 s :
  h1 <> h2 ->
  after_verifyPhoto env1 h1 z1 (after_verifyPhoto env2 h2 z2 s) =
  after_verifyPhoto env2 h2 z2 (after_verifyPhoto env1 h1 z1 s).
Proof.
  intros Hne. apply Storage_eq.
  - cbn [after_verifyPhoto attestations]. apply insert_insert_ne. exact Hne.
  - rewrite !ownerPhotoCount_after.
    destruct (decide (msg_sender env1 = msg_sender env2)) as [Heq|Hsender].
    + rewrite Heq, !ownerPhotoCount_at_after_eq, <- Heq, ownerPhotoCount_at_after_eq.
      rewrite !insert_insert_eq. reflexivity.
    + rewrite (ownerPhotoCount_at_after_ne env2) by exact Hsender.
      rewrite (ownerPhotoCount_at_after_ne env1) by congruence.
      apply insert_insert_ne. exact Hsender.
  - reflexivity.
  - cbn [after_verifyPhoto photoCount]. reflexivity.
Qed.

(** X6.  Writes of different identifiers commute.  When a
    [verifyPhoto] of one identifier followed by a [verifyPhoto] of
    another both go through, they also go through in the other order,
    and the storage at the end is the same: records, counts and all. *)
Theorem writes_commute (env1 env2 : Env) (h1 h2 z1 z2 : Z) (s : Storage)
        (t1 t2 : Z) (s1 s12 : Storage) :
  h1 <> h2 ->
  verifyPhoto env1 h1 z1 s = Ok (t1, s1) ->
  verifyPhoto env2 h2 z2 s1 = Ok (t2, s12) ->
  exists s2,
    verifyPhoto env2 h2 z2 s = Ok (t2, s2) /\
    verifyPhoto env1 h1 z1 s2 = Ok (t1, s12).
Proof.
  intros Hne H1 H2.
  apply verifyPhoto_inv in H1 as (-> & -> & Ho1 & Hp1).
  apply verifyPhoto_inv in H2 as (-> & -> & Ho2 & Hp2).
  cbn [after_verifyPhoto photoCount] in Hp2.
  exists (after_verifyPhoto env2 h2 z2 s).
  rewrite <- (after_verifyPhoto_commute env1 env2 h1 h2 z1 z2 s Hne).
  destruct (decide (msg_sender env2 = msg_sender env1)) as [Heq|Hsender].
  - rewrite Heq in Ho2. rewrite ownerPhotoCount_at_after_eq in Ho2.
    split; apply verifyPhoto_ok; split;
      rewrite ?Heq, <- ?Heq, ?ownerPhotoCount_at_after_eq;
      cbn [after_verifyPhoto photoCount]; rewrite ?Heq; lia.
  - rewrite ownerPhotoCount_at_after_ne in Ho2 by exact Hsender.
    split; apply verifyPhoto_ok; split;
      rewrite ?ownerPhotoCount_at_after_ne by congruence;
      cbn [after_verifyPhoto photoCount]; lia.
Qed.

Lemma writes_commute_witness :
  exists s2,
    verifyPhoto {| msg_sender := 6; block_timestamp := 1001 |} 8 10 (constructor env0)
    = Ok (1001, s2) /\
    verifyPhoto {| msg_sender := 5; block_timestamp := 1000 |} 7 9 s2
    = Ok (1000,
          after_verifyPhoto {| msg_sender := 6; block_timestamp := 1001 |} 8 10
            (after_verifyPhoto {| msg_sender := 5; block_timestamp := 1000 |} 7 9
                               (constructor env0))).
Proof.
  apply (writes_commute {| msg_sender := 5; block_timestamp := 1000 |}
                        {| msg_sender := 6; block_timestamp := 1001 |}
                        7 8 9 10 (constructor env0) 1000 1001
                        (after_verifyPhoto {| msg_sender := 5; block_timestamp := 1000 |} 7 9
                                           (constructor env0))).
  - lia.
  - apply verifyPhoto_ok, not_saturated_constructor.
  - apply verifyPhoto_ok. split; vm_compute; reflexivity.
Defined.

(** X7.  Anyone can take an identifier over.  After a [record] of [id]
    by one identity and a later [record] of the same [id] by any
    identity, in any state: the stored records are those of the state
    before with the second record at [id], as if the first had never been
    made; [getOwnerOf id] is the second submitter; and a secret proves
    ownership exactly when its commitment is the second commitment. *)
Theorem overwrite_takes_over (s : Storage) (id c1 c2 A B t1 t2 r1 r2 : Z)
        (s1 s2 : Storage) :
  record id c1 A t1 s = Ok (r1, s1) ->
  record id c2 B t2 s1 = Ok (r2, s2) ->
  attestations s2 =
    <[id := {| verifiedAt := t2; owner := B; zkCommitment := c2 |}]> (attestations s) /\
  getOwnerOf s2 id = B /\
  (forall secret,
     verifyZkProof s2 id secret = true <-> computeCommitment id secret = c2).
Proof.
  intros H1 H2.
  apply record_inv in H1 as (_ & -> & _). apply record_inv in H2 as (_ & -> & _).
  split; [|split].
  - cbn [after_verifyPhoto attestations block_timestamp msg_sender].
    apply insert_insert_eq.
  - unfold getOwnerOf. rewrite attestations_at_after_eq. reflexivity.
  - intros secret. rewrite verifyZkProof_true, attestations_at_after_eq. reflexivity.
Qed.

Lemma overwrite_takes_over_witness :
  let s2 := after_verifyPhoto {| msg_sender := 6; block_timestamp := 1001 |} 7 10
              (after_verifyPhoto {| msg_sender := 5; block_timestamp := 1000 |} 7 9
                                 (after_writes 3)) in
  attestations s2 =
    <[7 := {| verifiedAt := 1001; owner := 6; zkCommitment := 10 |}]>
      (attestations (after_writes 3)) /\
  getOwnerOf s2 7 = 6 /\
  (forall secret, verifyZkProof s2 7 secret = true <-> computeCommitment 7 secret = 10).
Proof.
  intros s2.
  apply (overwrite_takes_over (after_writes 3) 7 9 10 5 6 1000 1001 1000 1001
           (after_verifyPhoto {| msg_sender := 5; block_timestamp := 1000 |} 7 9
                              (after_writes 3)) s2).
  - apply record_ok. split; vm_compute; reflexivity.
  - apply record_ok. split; vm_compute; reflexivity.
Defined.

(** X8.  What every reachable state satisfies.  No identity's count is
    negative or above the global count, the global count fits a
    [uint256], and the three fields [getAttestation] returns have the
    widths of their types, for written and unwritten identifiers alike. *)
Theorem reachable_bounds (s : Storage) :
  reachable s ->
  (forall a, 0 <= getOwnerPhotoCount s a <= getPhotoCount s) /\
  getPhotoCount s <= MAX_UINT256 /\
  (forall h t o c,
     getAttestation s h = (t, o, c) ->
     is_uint256 t /\ is_address o /\ is_uint256 c).
Proof.
  intros Hs. apply reachable_wf_storage in Hs as (Hatt & Hcnt & Hmax).
  split; [exact Hcnt|]. split; [exact Hmax|].
  intros h t o c. unfold getAttestation, attestations_at.
  destruct (attestations s !! h) as [att|] eqn:E; cbn; intros [= <- <- <-].
  - apply (Hatt _ _ E).
  - unfold is_uint256, is_address, MAX_UINT256. lia.
Qed.

Lemma reachable_bounds_witness :
  (forall a, 0 <= getOwnerPhotoCount (after_writes 3) a <= getPhotoCount (after_writes 3)) /\
  getPhotoCount (after_writes 3) <= MAX_UINT256 /\
  (forall h t o c,
     getAttestation (after_writes 3) h = (t, o, c) ->
     is_uint256 t /\ is_address o /\ is_uint256 c).
Proof.
  apply (reachable_bounds (after_writes 3)).
  apply reachable_after_writes. unfold MAX_UINT256. lia.
Defined.

Lemma abi_encodePacked_cons a l :
  abi_encodePacked (a :: l) = be_bytes 32 a ++ abi_encodePacked l.
Proof. reflexivity. Qed.

(** X9.  The packed encoding loses nothing.  Two lists of [uint256]
    values with the same [abi.encodePacked] bytes are the same list: each
    value takes exactly 32 bytes, so the bytes that [computeCommitment]
    hashes determine the identifier and the secret. *)
Theorem abi_encodePacked_inj (l l' : list Z) :
  Forall is_uint256 l -> Forall is_uint256 l' ->
  abi_encodePacked l = abi_encodePacked l' -> l = l'.
Proof.
  intros Hl. revert l'. induction Hl as [|a l Ha Hl IH]; intros l' Hl' E.
  - destruct Hl' as [|b l' Hb Hl']; [reflexivity|].
    apply (f_equal length) in E. rewrite abi_encodePacked_cons, length_app in E.
    rewrite BytesFacts.length_be_bytes in E. cbn in E. lia.
  - destruct Hl' as [|b l' Hb Hl'].
    + apply (f_equal length) in E. rewrite abi_encodePacked_cons, length_app in E.
      rewrite BytesFacts.length_be_bytes in E. cbn in E. lia.
    + rewrite !abi_encodePacked_cons in E.
      apply app_inj_1 in E as [E1 E2];
        [|rewrite !BytesFacts.length_be_bytes; reflexivity].
      f_equal.
      * exact (BytesFacts.be_bytes_uint256_inj a b Ha Hb E1).
      * exact (IH l' Hl' E2).
Qed.

Lemma abi_encodePacked_inj_witness :
  [bytes32_11; bytes32_22] = [bytes32_11; 2 * bytes32_11].
Proof.
  apply (abi_encodePacked_inj [bytes32_11; bytes32_22] [bytes32_11; 2 * bytes32_11]).
  - repeat constructor; vm_compute; discriminate.
  - repeat constructor; vm_compute; discriminate.
  - vm_compute. reflexivity.
Defined.
End HistoryFacts.

(** ** The registry client: strings and local storage *)

Module EasFacts.
Import JsString Eas.

Local Open Scope string_scope.
Local Open Scope nat_scope.

Lemma append_cons c (s t : string) : String c s ++ t = String c (s ++ t).
Proof. reflexivity. Qed.

Lemma length_append (s t : string) :
  String.length (s ++ t) = String.length s + String.length t.
Proof.
  induction s as [|c s IH]; [reflexivity|].
  rewrite append_cons. cbn [String.length]. rewrite IH. reflexivity.
Qed.

Lemma append_nil_r (s : string) : s ++ "" = s.
Proof.
  induction s as [|c s IH]; [reflexivity|].
  rewrite append_cons, IH. reflexivity.
Qed.

Lemma length_repeat_unit c n : String.length (repeat_unit c n) = n.
Proof. induction n as [|n IH]; simpl; [reflexivity | f_equal; exact IH]. Qed.

Lemma startsWith_true (s p : string) :
  startsWith s p = true -> s = p ++ slice_from (String.length p) s.
Proof.
  revert s. induction p as [|c p IH]; intros s H.
  - reflexivity.
  - destruct s as [|d s]; [discriminate|]. cbn in H.
    destruct (Ascii.eqb_spec c d) as [->|]; [|discriminate].
    rewrite append_cons. cbn [String.length slice_from]. f_equal. apply IH, H.
Qed.

Lemma padEnd_long n c s : n <= String.length s -> padEnd n c s = s.
Proof.
  intros H. unfold padEnd. replace (n - String.length s) with 0 by lia.
  apply append_nil_r.
Qed.

Lemma length_padEnd n c s : String.length (padEnd n c s) = Nat.max n (String.length s).
Proof. unfold padEnd. rewrite length_append, length_repeat_unit. lia. Qed.

Lemma formatted_0x (b : string) :
  formatted ("0x" ++ b) = "0x" ++ padEnd 64 "0" b.
Proof. reflexivity. Qed.

Lemma formatted_bare (h : string) :
  startsWith h "0x" = false -> formatted h = "0x" ++ padEnd 64 "0" h.
Proof. intros E. unfold formatted, with_0x. rewrite E. reflexivity. Qed.

Lemma formatted_eq (h : string) :
  formatted h =
  "0x" ++ padEnd 64 "0" (if startsWith h "0x" then slice_from 2 h else h).
Proof.
  destruct (startsWith h "0x") eqn:Hp.
  - rewrite (startsWith_true h "0x" Hp) at 1. apply formatted_0x.
  - apply formatted_bare, Hp.
Qed.

(** X10.  What the formatting gives.  With [body] the input less its
    leading "0x" when it has one: the result is "0x", then the whole
    body, then zeros on the right up to 64 digits.  Nothing is cut: the
    result has 66 characters exactly when the body has at most 64, and is
    longer otherwise. *)
Theorem formatted_shape (h : string) :
  let body := if startsWith h "0x" then slice_from 2 h else h in
  formatted h = "0x" ++ body ++ repeat_unit "0" (64 - String.length body) /\
  String.length (formatted h) = 2 + Nat.max 64 (String.length body) /\
  startsWith (formatted h) "0x" = true.
Proof.
  cbv zeta. rewrite formatted_eq. split; [reflexivity|]. split; [|reflexivity].
  rewrite length_append, length_padEnd. reflexivity.
Qed.

(** X11.  The formatting is a normal form.  Formatting a formatted
    string changes nothing, and an input gives the same result with and
    without its "0x". *)
Theorem formatted_normal (h : string) :
  formatted (formatted h) = formatted h /\
  (startsWith h "0x" = false -> formatted ("0x" ++ h) = formatted h).
Proof.
  split.
  - rewrite (formatted_eq h) at 1. rewrite formatted_0x, padEnd_long.
    + symmetry. apply formatted_eq.
    + rewrite length_padEnd. lia.
  - intros Hp. rewrite formatted_0x, (formatted_bare h Hp). reflexivity.
Qed.

Lemma formatted_normal_witness :
  formatted ("0x" ++ "ab12") = formatted "ab12".
Proof. apply (proj2 (formatted_normal "ab12")). reflexivity. Defined.

Example formatted_short : formatted "ab12" =
  "0xab12000000000000000000000000000000000000000000000000000000000000".
Proof. reflexivity. Qed.

(** *** The key of a photo in local storage *)

Lemma replace_0x_prefixed (h : string) : replace "0x" "" ("0x" ++ h) = h.
Proof. reflexivity. Qed.

Lemma hex_not_0x (h : string) : is_hex h = true -> startsWith h "0x" = false.
Proof.
  destruct h as [|c [|d h]]; [reflexivity| |].
  - intros _. cbn [startsWith]. destruct (Ascii.eqb "0" c); reflexivity.
  - cbn [is_hex]. intros H.
    apply andb_prop in H as [_ H]. apply andb_prop in H as [Hd _].
    cbn [startsWith]. destruct (Ascii.eqb "0" c); [|reflexivity].
    destruct (Ascii.eqb_spec "x" d) as [<-|]; [discriminate Hd | reflexivity].
Qed.

Lemma replace_0x_hex (h : string) : is_hex h = true -> replace "0x" "" h = h.
Proof.
  induction h as [|c h IH]; intros H; [reflexivity|].
  cbn [replace]. rewrite (hex_not_0x _ H).
  cbn [is_hex] in H. apply andb_prop in H as [_ H]. rewrite (IH H). reflexivity.
Qed.

Lemma attestation_key_spelling (h p : string) :
  is_hex h = true -> p = h \/ p = "0x" ++ h ->
  attestation_key p = "eas_attestation_" ++ h.
Proof.
  intros Hh [-> | ->]; unfold attestation_key.
  - rewrite (replace_0x_hex h Hh). reflexivity.
  - rewrite replace_0x_prefixed. reflexivity.
Qed.

(** X12.  What is stored for a photo is found again, under either
    spelling of its hash.  For a hash [h] of hexadecimal digits, data
    stored for [h] or for "0x" followed by [h] is what
    [getLocalEASAttestation] parses and returns for [h] and for "0x"
    followed by [h]; and the lookups of a photo with another hash are
    as they were before. *)
Theorem stored_attestation_found {A : Type} (JSON_parse : string -> option A)
        (h json : string) (a : A) (localStorage : gmap string string)
        (p p' : string) :
  is_hex h = true ->
  p = h \/ p = "0x" ++ h ->
  p' = h \/ p' = "0x" ++ h ->
  json <> "" ->
  JSON_parse json = Some a ->
  getLocalEASAttestation JSON_parse p' (store_attestation p json localStorage) = Value a /\
  (forall h' q, is_hex h' = true -> h' <> h -> q = h' \/ q = "0x" ++ h' ->
     getLocalEASAttestation JSON_parse q (store_attestation p json localStorage) =
     getLocalEASAttestation JSON_parse q localStorage).
Proof.
  intros Hh Hp Hp' Hjson Hparse.
  pose proof (attestation_key_spelling h p Hh Hp) as Kp.
  pose proof (attestation_key_spelling h p' Hh Hp') as Kp'.
  unfold store_attestation. rewrite Kp. split.
  - unfold getLocalEASAttestation. fold (attestation_key p'). rewrite Kp'.
    rewrite lookup_insert_eq.
    destruct (String.eqb_spec json "") as [E|_]; [contradiction|].
    rewrite Hparse. reflexivity.
  - intros h' q Hh' Hne Hq.
    pose proof (attestation_key_spelling h' q Hh' Hq) as Kq.
    unfold getLocalEASAttestation. fold (attestation_key q). rewrite Kq.
    rewrite lookup_insert_ne; [reflexivity|].
    intros E. apply Hne. symmetry.
    exact (String.app_inj "eas_attestation_" _ _ E).
Qed.

Lemma stored_attestation_found_witness :
  getLocalEASAttestation Some "0xab12" (store_attestation "ab12" "{}" ∅) = Value "{}".
Proof.
  apply (stored_attestation_found Some "ab12" "{}" "{}" ∅ "ab12" "0xab12").
  - reflexivity.
  - left. reflexivity.
  - right. reflexivity.
  - discriminate.
  - reflexivity.
Defined.

(** *** The schema UID in local storage *)

(** X13.  The computed schema UID always wins.  Whatever
    [localStorage] held, for instance a UID set by hand with
    [setSchemaUID], and whether or not the registration went through,
    [getOrRegisterSchemaUID] returns the computed UID and leaves it
    stored: [getSchemaUID] then returns it.  Every other item of
    [localStorage] is left as it was. *)
Theorem schema_uid_overridden (computedUID : string) (registered : bool)
        (localStorage : gmap string string) (uid : string) :
  getSchemaUID (setSchemaUID uid localStorage) = Some uid /\
  fst (getOrRegisterSchemaUID computedUID registered (setSchemaUID uid localStorage))
  = computedUID /\
  getSchemaUID
    (snd (getOrRegisterSchemaUID computedUID registered (setSchemaUID uid localStorage)))
  = Some computedUID /\
  fst (getOrRegisterSchemaUID computedUID registered localStorage) = computedUID /\
  getSchemaUID (snd (getOrRegisterSchemaUID computedUID registered localStorage))
  = Some computedUID /\
  (forall k, k <> SCHEMA_UID_KEY ->
     snd (getOrRegisterSchemaUID computedUID registered localStorage) !! k
     = localStorage !! k).
Proof.
  assert (Hget : forall ls,
             getSchemaUID (snd (getOrRegisterSchemaUID computedUID registered ls))
             = Some computedUID).
  { intros ls. unfold getOrRegisterSchemaUID, getSchemaUID.
    destruct registered; cbn [snd]; case_decide as E;
      [exact E | apply lookup_insert_eq | exact E | apply lookup_insert_eq]. }
  assert (Hfst : forall ls,
             fst (getOrRegisterSchemaUID computedUID registered ls) = computedUID).
  { intros ls. unfold getOrRegisterSchemaUID. destruct registered; reflexivity. }
  split; [apply lookup_insert_eq|].
  split; [apply Hfst|]. split; [apply Hget|]. split; [apply Hfst|].
  split; [apply Hget|].
  intros k Hk. unfold getOrRegisterSchemaUID.
  destruct registered; cbn [snd]; case_decide; try reflexivity;
    apply lookup_insert_ne; congruence.
Qed.

(** *** The attestation's reference, from the receipt *)

Lemma uid_of_logs_skip topic (before after : list (list string)) :
  Forall (other_event topic) before ->
  uid_of_logs topic (before ++ after)%list = uid_of_logs topic after.
Proof.
  induction 1 as [|topics before Hother _ IH]; [reflexivity|].
  cbn [app uid_of_logs]. unfold other_event in Hother.
  case_decide; [contradiction | exact IH].
Qed.

(** X14.  The first log of the event decides.  When no log of the
    receipt carries the event's topic, or there is no receipt, the
    reference is the transaction hash.  Otherwise only the first log that
    carries it is read: its third topic is the reference when it has one
    and it is not empty, and else the reference is the transaction hash,
    whatever the later logs hold.  A non-empty transaction hash therefore
    never gives an empty reference. *)
Theorem attestation_reference_first_log (topic txHash : string)
        (before after : list (list string)) (log : list string) :
  Forall (other_event topic) before ->
  log !! 0%nat = Some topic ->
  attestation_reference topic (Some before) txHash = txHash /\
  attestation_reference topic None txHash = txHash /\
  attestation_reference topic (Some (before ++ log :: after)%list) txHash =
    match log !! 2%nat with
    | Some uid => if String.eqb uid "" then txHash else uid
    | None => txHash
    end /\
  (txHash <> "" ->
   attestation_reference topic (Some (before ++ log :: after)%list) txHash <> "").
Proof.
  intros Hbefore Hlog.
  assert (E : attestation_reference topic (Some (before ++ log :: after)%list) txHash =
              match log !! 2%nat with
              | Some uid => if String.eqb uid "" then txHash else uid
              | None => txHash
              end).
  { unfold attestation_reference. rewrite (uid_of_logs_skip topic before _ Hbefore).
    cbn [uid_of_logs]. case_decide; [reflexivity | contradiction]. }
  split; [|split; [reflexivity | split; [exact E|]]].
  - unfold attestation_reference.
    rewrite <- (app_nil_r before), (uid_of_logs_skip topic before [] Hbefore).
    reflexivity.
  - intros Htx. rewrite E.
    destruct (log !! 2%nat) as [uid|]; [|exact Htx].
    destruct (String.eqb_spec uid "") as [_|Hne]; [exact Htx | exact Hne].
Qed.

Lemma attestation_reference_first_log_witness :
  attestation_reference "0xa77e" (Some [["0x0ther"; "0x1"]; ["0xa77e"; "0x1"; "0x2"];
                                        ["0xa77e"; "0x1"; "0x3"]]) "0xbeef" = "0x2".
Proof.
  apply (proj1 (proj2 (proj2
           (attestation_reference_first_log "0xa77e" "0xbeef"
              [["0x0ther"; "0x1"]] [["0xa77e"; "0x1"; "0x3"]] ["0xa77e"; "0x1"; "0x2"]
              ltac:(repeat constructor; discriminate) eq_refl)))).
Defined.

End EasFacts.
